(** * The Gloo router of the canary controller: UpstreamGroup reconciliation

    A shallow embedding of [pkg/router/gloo.go].  Three revisions of the
    file are verified side by side, one module each:

    - [Part000]      the revision whose [Reconcile] rebuilds the destination
                     list and whose [Finalize] removes by a default index
                     (src/unnamed/part_000);
    - [GlooUpsert]   the revision that appends the canary destination when
                     it is missing and edits weights through the slice index
                     (src/pkg/router/gloo.go, first document);
    - [GlooReplace]  the revision that replaces the whole spec with the
                     two canonical destinations, gated by [cmp.Diff]
                     (src/pkg/router/gloo.go, second document).

    The remote API server is a finite map from (namespace, name) to the
    stored object, with optimistic concurrency on the resource version and
    a schedule of transport faults.  Go run-time panics are an outcome of
    their own, distinct from returned [error] values. *)

From Stdlib Require Import ZArith Lia.
From stdpp Require Import base strings pretty list gmap.

Local Open Scope Z_scope.

(** ** Go integers *)

(** [int] is the 64-bit signed integer of the platforms the controller is
    built for; arithmetic wraps around. *)
Definition int_wrap (z : Z) : Z := (z + 2 ^ 63) mod 2 ^ 64 - 2 ^ 63.

Definition int_mul (a b : Z) : Z := int_wrap (a * b).
Definition int_sub (a b : Z) : Z := int_wrap (a - b).
(** Go's [/] on integers truncates toward zero. *)
Definition int_div (a b : Z) : Z := int_wrap (a ÷ b).

(** The conversions [uint32(x)] of an [int] and [int(w)] of a [uint32]. *)
Definition uint32_of_int (z : Z) : Z := z mod 2 ^ 32.
Definition int_of_uint32 (w : Z) : Z := int_wrap w.

(** ** The API types the router touches *)

(** [gloov1.ResourceRef], [gloov1.Destination], [gloov1.WeightedDestination]
    and [gloov1.UpstreamGroupSpec], with the fields the router reads and
    writes.  [Weight] is a [uint32]. *)
Record ResourceRef := { Name : string; Namespace : string }.
Record Destination := { Upstream : ResourceRef }.
Record WeightedDestination := { Dest : Destination; Weight : Z }.
Record UpstreamGroupSpec := { Destinations : list WeightedDestination }.

(** [gloov1.UpstreamGroup]: the object metadata the store keys on, the
    opaque resource version, and the spec. *)
Record UpstreamGroup := {
  ObjName : string;
  ObjNamespace : string;
  ResourceVersion : N;
  Spec : UpstreamGroupSpec
}.

(** [flaggerv1.Canary], restricted to what the router reads:
    [canary.Name], [canary.Namespace], [canary.Spec.TargetRef.Name] and
    [canary.Spec.Service.Port] (an [int32]). *)
Record Canary := {
  CanaryName : string;
  CanaryNamespace : string;
  TargetRefName : string;
  ServicePort : Z
}.

Global Instance ResourceRef_eq_dec : EqDecision ResourceRef.
Proof. solve_decision. Defined.
Global Instance Destination_eq_dec : EqDecision Destination.
Proof. solve_decision. Defined.
Global Instance WeightedDestination_eq_dec : EqDecision WeightedDestination.
Proof. solve_decision. Defined.

(** The composite literal
    [gloov1.WeightedDestination{Destination: {Upstream: {Name, Namespace}}, Weight}]. *)
Definition mkWD (name ns : string) (w : Z) : WeightedDestination :=
  {| Dest := {| Upstream := {| Name := name; Namespace := ns |} |}; Weight := w |}.

(** The zero value of [gloov1.WeightedDestination], what [make] fills with. *)
Definition zeroWD : WeightedDestination := mkWD "" "" 0.

Definition upstreamName (d : WeightedDestination) : string := Name (Upstream (Dest d)).

(** [d.Weight = w] on a struct value. *)
Definition withWeight (d : WeightedDestination) (w : Z) : WeightedDestination :=
  {| Dest := Dest d; Weight := w |}.

(** [g.Spec.Destinations = ds] on an object. *)
Definition withDestinations (g : UpstreamGroup) (ds : list WeightedDestination) : UpstreamGroup :=
  {| ObjName := ObjName g; ObjNamespace := ObjNamespace g;
     ResourceVersion := ResourceVersion g; Spec := {| Destinations := ds |} |}.

(** [g.DeepCopy()]: a value with the same contents. *)
Definition DeepCopy (g : UpstreamGroup) : UpstreamGroup := g.

(** ** Derived names *)

(** Modelled from the spec: [Canary.GetServiceNames] is declared in the API
    package, outside the router file.  Every call site keeps only its first
    result, the apex name, which the spec gives as the target reference
    name. *)
Definition GetServiceNames (canary : Canary) : string := TargetRefName canary.

(** [fmt.Sprintf("%s-canary-%v", apexName, port)] and
    [fmt.Sprintf("%s-%v", apexName, port)]. *)
Definition Sprintf_canary (apexName : string) (port : Z) : string :=
  apexName +:+ "-canary-" +:+ pretty port.
Definition Sprintf_primary (apexName : string) (port : Z) : string :=
  apexName +:+ "-" +:+ pretty port.

(** ** Errors *)

(** What the API client reports. *)
Inductive StatusError := StatusNotFound | StatusConflict | StatusUnavailable.

Definition IsNotFound (e : StatusError) : bool :=
  match e with StatusNotFound => true | _ => false end.

(** The errors the router builds with [fmt.Errorf], one constructor per
    format string, carrying the apex name and namespace it prints. *)
Inductive RouterError :=
| ErrNotFound (apexName ns : string)
    (* "UpstreamGroup %s.%s not found" *)
| ErrGetQuery (apexName ns : string) (cause : StatusError)
    (* "UpstreamGroup %s.%s get query error: %w" *)
| ErrQuery (apexName ns : string) (cause : StatusError)
    (* "UpstreamGroup %s.%s query error: %w" *)
| ErrUpdate (apexName ns : string) (cause : StatusError)
    (* "UpstreamGroup %s.%s update error: %w" *)
| ErrDestinationsNotFound (apexName ns : string)
    (* "UpstreamGroup %s.%s destinations not found" *)
| ErrCanaryDestinationNotFound (apexName ns : string)
    (* "UpstreamGroup %s.%s canary destination not found" *)
| ErrNoValidWeights (apexName ns : string)
    (* "RoutingRule %s.%s update failed: no valid weights" *).

(** The error classes of the specification. *)
Definition isInsufficientDestinations (e : RouterError) : bool :=
  match e with ErrDestinationsNotFound _ _ => true | _ => false end.
Definition isDestinationNotFound (e : RouterError) : bool :=
  match e with ErrCanaryDestinationNotFound _ _ => true | _ => false end.
Definition isInvalidWeights (e : RouterError) : bool :=
  match e with ErrNoValidWeights _ _ => true | _ => false end.

(** ** The remote store and the effects of a call *)

Inductive Event :=
| EvGet (ns name : string)
| EvUpdate (ns : string) (obj : UpstreamGroup)
| EvInfo (updated : bool) (name ns : string).

(** What the server keeps under a (namespace, name) key. *)
Record Stored := { version : N; spec : UpstreamGroupSpec }.

Definition object_of (ns name : string) (s : Stored) : UpstreamGroup :=
  {| ObjName := name; ObjNamespace := ns; ResourceVersion := version s; Spec := spec s |}.

(** [store]: the objects on the server.  [faults]: the transport faults
    still to come, one flag per remote call ([true]: that call fails);
    when exhausted, calls go through.  [journal]: the remote calls and log
    lines so far, oldest first. *)
Record World := {
  store : gmap (string * string) Stored;
  faults : list bool;
  journal : list Event
}.

Inductive Outcome (A : Type) :=
| Returned (a : A) (w : World)
| Panicked.
Arguments Returned {A} a w.
Arguments Panicked {A}.

Definition Op (A : Type) : Type := World → Outcome A.

Global Instance Op_ret : MRet Op := λ A a w, Returned a w.
Global Instance Op_bind : MBind Op := λ A B f m w,
  match m w with
  | Returned a w' => f a w'
  | Panicked => Panicked
  end.

Definition panic {A} : Op A := λ _, Panicked.

Definition record (e : Event) : Op unit := λ w,
  Returned tt {| store := store w; faults := faults w; journal := journal w ++ [e] |}.

(** Consume the next scheduled transport fault. *)
Definition next_fault : Op bool := λ w,
  match faults w with
  | [] => Returned false w
  | b :: fs => Returned b {| store := store w; faults := fs; journal := journal w |}
  end.

Definition read_store (ns name : string) : Op (option Stored) := λ w,
  Returned (store w !! (ns, name)) w.

Definition write_store (ns name : string) (g : Stored) : Op unit := λ w,
  Returned tt {| store := <[(ns, name) := g]> (store w); faults := faults w; journal := journal w |}.

(** [glooClient.GlooV1().UpstreamGroups(ns).Get(ctx, name, opts)]. *)
Definition Get (ns name : string) : Op (UpstreamGroup + StatusError) :=
  _ ← record (EvGet ns name);
  failed ← next_fault;
  if failed : bool then mret (inr StatusUnavailable)
  else
    o ← read_store ns name;
    match o with
    | None => mret (inr StatusNotFound)
    | Some s => mret (inl (object_of ns name s))
    end.

(** [glooClient.GlooV1().UpstreamGroups(ns).Update(ctx, obj, opts)]: the
    write goes through only under the resource version the server holds,
    and gives the object a new one. *)
Definition Update (ns : string) (obj : UpstreamGroup) : Op (UpstreamGroup + StatusError) :=
  _ ← record (EvUpdate ns obj);
  failed ← next_fault;
  if failed : bool then mret (inr StatusUnavailable)
  else
    o ← read_store ns (ObjName obj);
    match o with
    | None => mret (inr StatusNotFound)
    | Some cur =>
        if decide (version cur = ResourceVersion obj) then
          let stored := {| version := N.succ (version cur); spec := Spec obj |} in
          _ ← write_store ns (ObjName obj) stored;
          mret (inl (object_of ns (ObjName obj) stored))
        else mret (inr StatusConflict)
    end.

(** ** Slices *)

(** [s[i]] as an operand: a run-time panic when [i] is out of range. *)
Definition index {A} (s : list A) (i : Z) : Op A :=
  if decide (0 ≤ i) then
    match s !! Z.to_nat i with
    | Some x => mret x
    | None => panic
    end
  else panic.

(** [s[i] = x]. *)
Definition assign {A} (s : list A) (i : Z) (x : A) : Op (list A) :=
  if decide (0 ≤ i < Z.of_nat (length s)) then mret (<[Z.to_nat i := x]> s) else panic.

(** [s[:n]] for a slice used up to its length. *)
Definition slice_to {A} (s : list A) (n : Z) : Op (list A) :=
  if decide (0 ≤ n ≤ Z.of_nat (length s)) then mret (take (Z.to_nat n) s) else panic.

(** [len(s)]. *)
Definition len {A} (s : list A) : Z := Z.of_nat (length s).

(** The loop [for i, dst := range ds { if dst.Destination.Upstream.Name == name { ...; break } }]:
    the index and the copy of the first element that matches. *)
Fixpoint range_find_from (i : Z) (name : string) (ds : list WeightedDestination)
  : option (Z * WeightedDestination) :=
  match ds with
  | [] => None
  | dst :: rest =>
      if decide (upstreamName dst = name) then Some (i, dst)
      else range_find_from (i + 1) name rest
  end.

Definition range_find := range_find_from 0.

(** [func remove(s []gloov1.WeightedDestination, i int) []gloov1.WeightedDestination]. *)
Definition remove (s : list WeightedDestination) (i : Z) : Op (list WeightedDestination) :=
  last ← index s (len s - 1);
  s' ← assign s i last;
  slice_to s' (len s - 1).

(** ** Revision [Part000] (src/unnamed/part_000) *)

Module Part000.

(** The loop of [Reconcile]'s second branch, over a slice made with
    [make(..., len+1)]:
    [newDestinations = append(newDestinations, dst)], then, on the canary,
    [newDestinations[i].Weight = uint32(0)]. *)
Fixpoint rebuild_from (i : Z) (canaryName : string) (ds newDestinations : list WeightedDestination)
  : Op (list WeightedDestination) :=
  match ds with
  | [] => mret newDestinations
  | dst :: rest =>
      let appended := newDestinations ++ [dst] in
      nd ← (if decide (upstreamName dst = canaryName) then
              cur ← index appended i;
              assign appended i (withWeight cur (uint32_of_int 0))
            else mret appended);
      rebuild_from (i + 1) canaryName rest nd
  end.

Definition Reconcile (canary : Canary) : Op (option RouterError) :=
  let apexName := GetServiceNames canary in
  let canaryName := Sprintf_canary apexName (ServicePort canary) in
  let ns := CanaryNamespace canary in
  r ← Get ns apexName;
  match r with
  | inr err =>
      if IsNotFound err then mret (Some (ErrNotFound apexName ns))
      else mret (Some (ErrGetQuery apexName ns err))
  | inl upstreamGroup =>
      let ds := Destinations (Spec upstreamGroup) in
      newDestinations ←
        match range_find canaryName ds with
        | None => mret (ds ++ [mkWD canaryName ns (uint32_of_int 0)])
        | Some _ =>
            rebuild_from 0 canaryName ds (replicate (Z.to_nat (len ds + 1)) zeroWD)
        end;
      let clone := withDestinations (DeepCopy upstreamGroup) newDestinations in
      u ← Update ns clone;
      match u with
      | inr err => mret (Some (ErrUpdate apexName ns err))
      | inl _ =>
          _ ← record (EvInfo true (ObjName upstreamGroup) ns);
          mret None
      end
  end.

Definition GetRoutes (canary : Canary) : Op (Z * Z * bool * option RouterError) :=
  let apexName := TargetRefName canary in
  let primaryName := Sprintf_primary (TargetRefName canary) (ServicePort canary) in
  let ns := CanaryNamespace canary in
  r ← Get ns apexName;
  match r with
  | inr err => mret (0, 0, false, Some (ErrGetQuery apexName ns err))
  | inl upstreamGroup =>
      let ds := Destinations (Spec upstreamGroup) in
      if decide (len ds < 2) then
        mret (0, 0, false, Some (ErrDestinationsNotFound apexName ns))
      else
        match range_find primaryName ds with
        | Some (_, dst) =>
            let primaryWeight := int_div (int_of_uint32 (Weight dst)) 10 in
            let canaryWeight := int_sub 100 primaryWeight in
            mret (primaryWeight, canaryWeight, false, None)
        | None => mret (0, 0, false, None)
        end
  end.

(** The loop assigns to [dst], the loop's copy of the element: the slice
    of [upstreamGroup] is not written. *)
Definition SetRoutes (canary : Canary) (primaryWeight canaryWeight : Z) (_ : bool)
  : Op (option RouterError) :=
  let apexName := GetServiceNames canary in
  let canaryName := Sprintf_canary apexName (ServicePort canary) in
  let ns := CanaryNamespace canary in
  if decide (primaryWeight = 0 ∧ canaryWeight = 0) then
    mret (Some (ErrNoValidWeights apexName ns))
  else
    r ← Get ns apexName;
    match r with
    | inr err => mret (Some (ErrQuery apexName ns err))
    | inl upstreamGroup =>
        let _dst :=
          match range_find canaryName (Destinations (Spec upstreamGroup)) with
          | Some (_, dst) => Some (withWeight dst (uint32_of_int (int_mul canaryWeight 10)))
          | None => None
          end in
        u ← Update ns upstreamGroup;
        match u with
        | inr err => mret (Some (ErrUpdate apexName ns err))
        | inl _ => mret None
        end
    end.

(** [var idx int] starts at zero and stays there when no element matches. *)
Definition Finalize (canary : Canary) : Op (option RouterError) :=
  let apexName := GetServiceNames canary in
  let canaryName := Sprintf_canary apexName (ServicePort canary) in
  let ns := CanaryNamespace canary in
  r ← Get ns apexName;
  match r with
  | inr err => mret (Some (ErrQuery apexName ns err))
  | inl upstreamGroup =>
      let ds := Destinations (Spec upstreamGroup) in
      let idx := match range_find canaryName ds with Some (i, _) => i | None => 0 end in
      ds' ← remove ds idx;
      let upstreamGroup := withDestinations upstreamGroup ds' in
      u ← Update ns upstreamGroup;
      match u with
      | inr err => mret (Some (ErrUpdate apexName ns err))
      | inl _ => mret None
      end
  end.

End Part000.

(** ** Revision [GlooUpsert] (src/pkg/router/gloo.go, first document) *)

Module GlooUpsert.

Definition Reconcile (canary : Canary) : Op (option RouterError) :=
  let apexName := GetServiceNames canary in
  let canaryName := Sprintf_canary apexName (ServicePort canary) in
  let ns := CanaryNamespace canary in
  r ← Get ns apexName;
  match r with
  | inr err =>
      if IsNotFound err then mret (Some (ErrNotFound apexName ns))
      else mret (Some (ErrGetQuery apexName ns err))
  | inl upstreamGroup =>
      let ds := Destinations (Spec upstreamGroup) in
      let logged :=
        _ ← record (EvInfo false (ObjName upstreamGroup) ns);
        mret None in
      match range_find canaryName ds with
      | None =>
          let newDestinations := [] ++ ds in
          let upstreamGroup :=
            withDestinations upstreamGroup
              (newDestinations ++ [mkWD canaryName ns (uint32_of_int 0)]) in
          u ← Update ns upstreamGroup;
          match u with
          | inr err => mret (Some (ErrUpdate apexName ns err))
          | inl _ => logged
          end
      | Some _ => logged
      end
  end.

Definition GetRoutes (canary : Canary) : Op (Z * Z * bool * option RouterError) :=
  let apexName := TargetRefName canary in
  let canaryName := Sprintf_canary apexName (ServicePort canary) in
  let ns := CanaryNamespace canary in
  r ← Get ns apexName;
  match r with
  | inr err => mret (0, 0, false, Some (ErrGetQuery apexName ns err))
  | inl upstreamGroup =>
      let ds := Destinations (Spec upstreamGroup) in
      if decide (len ds < 2) then
        mret (0, 0, false, Some (ErrDestinationsNotFound apexName ns))
      else
        match range_find canaryName ds with
        | Some (_, dst) =>
            let canaryWeight := int_div (int_of_uint32 (Weight dst)) 10 in
            let primaryWeight := int_sub 100 canaryWeight in
            mret (primaryWeight, canaryWeight, false, None)
        | None => mret (0, 0, false, Some (ErrCanaryDestinationNotFound apexName ns))
        end
  end.

(** The loop writes [upstreamGroup.Spec.Destinations[i].Weight]. *)
Definition SetRoutes (canary : Canary) (primaryWeight canaryWeight : Z) (_ : bool)
  : Op (option RouterError) :=
  let apexName := GetServiceNames canary in
  let canaryName := Sprintf_canary apexName (ServicePort canary) in
  let ns := CanaryNamespace canary in
  if decide (primaryWeight = 0 ∧ canaryWeight = 0) then
    mret (Some (ErrNoValidWeights apexName ns))
  else
    r ← Get ns apexName;
    match r with
    | inr err => mret (Some (ErrQuery apexName ns err))
    | inl upstreamGroup =>
        let ds := Destinations (Spec upstreamGroup) in
        ds' ←
          match range_find canaryName ds with
          | Some (i, _) =>
              cur ← index ds i;
              assign ds i (withWeight cur (uint32_of_int (int_mul canaryWeight 10)))
          | None => mret ds
          end;
        let upstreamGroup := withDestinations upstreamGroup ds' in
        u ← Update ns upstreamGroup;
        match u with
        | inr err => mret (Some (ErrUpdate apexName ns err))
        | inl _ => mret None
        end
    end.

Definition Finalize (canary : Canary) : Op (option RouterError) :=
  let apexName := GetServiceNames canary in
  let canaryName := Sprintf_canary apexName (ServicePort canary) in
  let ns := CanaryNamespace canary in
  r ← Get ns apexName;
  match r with
  | inr err => mret (Some (ErrQuery apexName ns err))
  | inl upstreamGroup =>
      let ds := Destinations (Spec upstreamGroup) in
      ds' ←
        match range_find canaryName ds with
        | Some (i, _) => remove ds i
        | None => mret ds
        end;
      let upstreamGroup := withDestinations upstreamGroup ds' in
      u ← Update ns upstreamGroup;
      match u with
      | inr err => mret (Some (ErrUpdate apexName ns err))
      | inl _ => mret None
      end
  end.

End GlooUpsert.

(** ** Revision [GlooReplace] (src/pkg/router/gloo.go, second document) *)

Module GlooReplace.

(** [cmp.Diff(x, y, cmpopts.IgnoreFields(gloov1.WeightedDestination{}, "Weight")) != ""]:
    the two specs differ in the length of their destination lists or in
    some element's [Destination].  The router's left operand always has
    two elements, so a nil slice and an empty one are on the same side of
    the comparison. *)
Definition DiffIgnoringWeight (x y : UpstreamGroupSpec) : bool :=
  if decide (Dest <$> Destinations x = Dest <$> Destinations y) then false else true.

Definition Reconcile (canary : Canary) : Op (option RouterError) :=
  let apexName := GetServiceNames canary in
  let canaryName := Sprintf_canary apexName (ServicePort canary) in
  let primaryName := Sprintf_primary apexName (ServicePort canary) in
  let ns := CanaryNamespace canary in
  let newSpec :=
    {| Destinations := [mkWD primaryName ns 1000; mkWD canaryName ns 0] |} in
  r ← Get ns apexName;
  match r with
  | inr err =>
      if IsNotFound err then mret (Some (ErrNotFound apexName ns))
      else mret (Some (ErrGetQuery apexName ns err))
  | inl upstreamGroup =>
      (* [upstreamGroup != nil] holds after a read without error *)
      if DiffIgnoringWeight newSpec (Spec upstreamGroup) then
        let clone :=
          {| ObjName := ObjName (DeepCopy upstreamGroup);
             ObjNamespace := ObjNamespace (DeepCopy upstreamGroup);
             ResourceVersion := ResourceVersion (DeepCopy upstreamGroup);
             Spec := newSpec |} in
        u ← Update ns clone;
        match u with
        | inr err => mret (Some (ErrUpdate apexName ns err))
        | inl _ =>
            _ ← record (EvInfo true (ObjName upstreamGroup) ns);
            mret None
        end
      else mret None
  end.

Definition GetRoutes (canary : Canary) : Op (Z * Z * bool * option RouterError) :=
  let apexName := TargetRefName canary in
  let primaryName := Sprintf_primary (TargetRefName canary) (ServicePort canary) in
  let ns := CanaryNamespace canary in
  r ← Get ns apexName;
  match r with
  | inr err => mret (0, 0, false, Some (ErrGetQuery apexName ns err))
  | inl upstreamGroup =>
      let ds := Destinations (Spec upstreamGroup) in
      if decide (len ds < 2) then
        mret (0, 0, false, Some (ErrDestinationsNotFound apexName ns))
      else
        match range_find primaryName ds with
        | Some (_, dst) =>
            let primaryWeight := int_div (int_of_uint32 (Weight dst)) 10 in
            let canaryWeight := int_sub 100 primaryWeight in
            mret (primaryWeight, canaryWeight, false, None)
        | None => mret (0, 0, false, None)
        end
  end.

Definition SetRoutes (canary : Canary) (primaryWeight canaryWeight : Z) (_ : bool)
  : Op (option RouterError) :=
  let apexName := GetServiceNames canary in
  let canaryName := Sprintf_canary apexName (ServicePort canary) in
  let primaryName := Sprintf_primary apexName (ServicePort canary) in
  let ns := CanaryNamespace canary in
  if decide (primaryWeight = 0 ∧ canaryWeight = 0) then
    mret (Some (ErrNoValidWeights apexName ns))
  else
    r ← Get ns apexName;
    match r with
    | inr err => mret (Some (ErrQuery apexName ns err))
    | inl upstreamGroup =>
        let upstreamGroup :=
          withDestinations upstreamGroup
            [mkWD primaryName ns (uint32_of_int (int_mul primaryWeight 10));
             mkWD canaryName ns (uint32_of_int (int_mul canaryWeight 10))] in
        u ← Update ns upstreamGroup;
        match u with
        | inr err => mret (Some (ErrUpdate apexName ns err))
        | inl _ => mret None
        end
    end.

Definition Finalize (_ : Canary) : Op (option RouterError) := mret None.

End GlooReplace.

(** ** Observations on worlds and outcomes *)

Definition demo : Canary :=
  {| CanaryName := "podinfo"; CanaryNamespace := "test";
     TargetRefName := "podinfo"; ServicePort := 9898 |}.

Definition world_of (ds : list WeightedDestination) : World :=
  {| store := {[ ("test", "podinfo") := {| version := 7; spec := {| Destinations := ds |} |} ]};
     faults := []; journal := [] |}.

(** The destination list the server holds under a key. *)
Definition stored_at (ns name : string) (w : World) : option (list WeightedDestination) :=
  (λ s, Destinations (spec s)) <$> store w !! (ns, name).

(** What an operation leaves on the server for the demo rollout. *)
Definition stored_destinations (w : World) : option (list WeightedDestination) :=
  stored_at "test" "podinfo" w.

Definition result_of {A} (o : Outcome A) : option A :=
  match o with Returned a _ => Some a | Panicked => None end.
Definition world_after {A} (o : Outcome A) : option World :=
  match o with Returned _ w => Some w | Panicked => None end.

(** The number of [Update] calls in a journal. *)
Definition isUpdate (e : Event) : bool :=
  match e with EvUpdate _ _ => true | _ => false end.

Fixpoint updates (j : list Event) : nat :=
  match j with
  | [] => 0%nat
  | e :: rest => ((if isUpdate e then 1 else 0) + updates rest)%nat
  end.

(** Closed forms of the two remote calls: what they answer and the world
    they leave. *)
Definition next_is_faulty (w : World) : bool :=
  match faults w with b :: _ => b | [] => false end.

Definition after_call (e : Event) (w : World) : World :=
  {| store := store w; faults := tail (faults w); journal := journal w ++ [e] |}.

Definition Get_result (ns name : string) (w : World) : UpstreamGroup + StatusError :=
  if next_is_faulty w then inr StatusUnavailable
  else match store w !! (ns, name) with
       | None => inr StatusNotFound
       | Some s => inl (object_of ns name s)
       end.

Definition Update_result (ns : string) (obj : UpstreamGroup) (w : World)
  : UpstreamGroup + StatusError :=
  if next_is_faulty w then inr StatusUnavailable
  else match store w !! (ns, ObjName obj) with
       | None => inr StatusNotFound
       | Some cur =>
           if decide (version cur = ResourceVersion obj) then
             inl (object_of ns (ObjName obj)
                    {| version := N.succ (version cur); spec := Spec obj |})
           else inr StatusConflict
       end.

Definition Update_world (ns : string) (obj : UpstreamGroup) (w : World) : World :=
  match Update_result ns obj w with
  | inl o =>
      {| store := <[(ns, ObjName obj) :=
                     {| version := ResourceVersion o; spec := Spec o |}]> (store w);
         faults := tail (faults w);
         journal := journal w ++ [EvUpdate ns obj] |}
  | inr _ => after_call (EvUpdate ns obj) w
  end.

(** The world after a log line. *)
Definition logged (e : Event) (w : World) : World :=
  {| store := store w; faults := faults w; journal := journal w ++ [e] |}.

(** The spec [Reconcile] of [GlooReplace] wants on the server. *)
Definition canonical_spec (canary : Canary) : UpstreamGroupSpec :=
  {| Destinations :=
       [mkWD (Sprintf_primary (TargetRefName canary) (ServicePort canary))
             (CanaryNamespace canary) 1000;
        mkWD (Sprintf_canary (TargetRefName canary) (ServicePort canary))
             (CanaryNamespace canary) 0] |}.

(** The call comes back to its caller, with a result or an error value. *)
Definition returns {A} (o : Outcome A) : Prop := ∃ a w, o = Returned a w.

(** An operation's error result falls in a class of the specification. *)
Definition fails_with (class : RouterError → bool) (e : option RouterError) : Prop :=
  ∃ err, e = Some err ∧ class err = true.

(** The destination lists of the worked cases, for the [demo] rollout. *)
Definition primary_at (w : Z) : WeightedDestination := mkWD "podinfo-9898" "test" w.
Definition canary_at (w : Z) : WeightedDestination := mkWD "podinfo-canary-9898" "test" w.

(** The world a call that returned has left; [w] itself after a panic. *)
Definition world_left {A} (o : Outcome A) (w : World) : World :=
  match o with Returned _ w' => w' | Panicked => w end.

(** The key of the group a rollout's operations work on. *)
Definition group_key (canary : Canary) : string * string :=
  (CanaryNamespace canary, TargetRefName canary).

(** One write to the object under [key], at the version it had. *)
Definition wrote_at (key : string * string) (w w' : World) : Prop :=
  ∃ s s', store w !! key = Some s
          ∧ version s' = N.succ (version s)
          ∧ store w' = <[key := s']> (store w).

(** What a mutating operation that ended with [e] in world [w'] may have
    done to the server: nothing, or, when it returns nil, one write to its
    own group.  An update error it reports is a transport failure. *)
Definition effect_on (key : string * string) (w : World) (e : option RouterError) (w' : World)
  : Prop :=
  (store w' = store w ∨ (e = None ∧ wrote_at key w w'))
  ∧ (∀ a n cause, e = Some (ErrUpdate a n cause) → cause = StatusUnavailable).

(** Stored weights fit the [uint32] field they come from. *)
Definition weights_in_range (ds : list WeightedDestination) : Prop :=
  Forall (λ x, 0 ≤ Weight x < 2 ^ 32) ds.

(** The revisions and their mutating operations, to state a property of
    all of them at once. *)
Inductive Revision := RevPart000 | RevGlooUpsert | RevGlooReplace.

Inductive Call :=
| CallReconcile
| CallSetRoutes (primaryWeight canaryWeight : Z) (mirror : bool)
| CallFinalize.

Definition run (r : Revision) (c : Call) (canary : Canary) : Op (option RouterError) :=
  match r, c with
  | RevPart000, CallReconcile => Part000.Reconcile canary
  | RevPart000, CallSetRoutes p c m => Part000.SetRoutes canary p c m
  | RevPart000, CallFinalize => Part000.Finalize canary
  | RevGlooUpsert, CallReconcile => GlooUpsert.Reconcile canary
  | RevGlooUpsert, CallSetRoutes p c m => GlooUpsert.SetRoutes canary p c m
  | RevGlooUpsert, CallFinalize => GlooUpsert.Finalize canary
  | RevGlooReplace, CallReconcile => GlooReplace.Reconcile canary
  | RevGlooReplace, CallSetRoutes p c m => GlooReplace.SetRoutes canary p c m
  | RevGlooReplace, CallFinalize => GlooReplace.Finalize canary
  end.

Definition GetRoutes_of (r : Revision) : Canary → Op (Z * Z * bool * option RouterError) :=
  match r with
  | RevPart000 => Part000.GetRoutes
  | RevGlooUpsert => GlooUpsert.GetRoutes
  | RevGlooReplace => GlooReplace.GetRoutes
  end.

(** The demo world with a schedule of transport faults, and one with a
    second group beside the rollout's. *)
Definition faulty_world (fs : list bool) (ds : list WeightedDestination) : World :=
  {| store := store (world_of ds); faults := fs; journal := [] |}.

Definition two_group_world (ds other : list WeightedDestination) : World :=
  {| store := <[("test", "backend") := {| version := 3; spec := {| Destinations := other |} |}]>
                (store (world_of ds));
     faults := []; journal := [] |}.

(** Unfold an operation down to its first remote call. *)
Ltac enter_op :=
  cbv beta delta [Part000.GetRoutes GlooUpsert.GetRoutes GlooReplace.GetRoutes
                  Part000.SetRoutes GlooUpsert.SetRoutes GlooReplace.SetRoutes
                  Part000.Reconcile GlooUpsert.Reconcile GlooReplace.Reconcile
                  Part000.Finalize GlooUpsert.Finalize GlooReplace.Finalize
                  GetServiceNames DeepCopy];
  cbv zeta.

(** * Properties *)

(** ** Integer conversions *)

Lemma int_wrap_small z : - 2 ^ 63 ≤ z < 2 ^ 63 → int_wrap z = z.
Proof.
  intros Hz. unfold int_wrap.
  rewrite Z.mod_small; lia.
Qed.

Lemma uint32_of_int_wrap z : uint32_of_int (int_wrap z) = z mod 2 ^ 32.
Proof.
  unfold uint32_of_int, int_wrap.
  pose proof (Z.div_mod (z + 2 ^ 63) (2 ^ 64) ltac:(lia)) as Hdm.
  set (q := (z + 2 ^ 63) `div` 2 ^ 64) in *.
  replace ((z + 2 ^ 63) `mod` 2 ^ 64 - 2 ^ 63) with (z + (- q * 2 ^ 32) * 2 ^ 32) by lia.
  apply Z.mod_add. lia.
Qed.

Lemma uint32_of_int_mul percent :
  uint32_of_int (int_mul percent 10) = (percent * 10) mod 2 ^ 32.
Proof. unfold int_mul. apply uint32_of_int_wrap. Qed.

(** A percent in 0..100 survives the trip through the 0..1000 scale. *)
Lemma percent_roundtrip c :
  0 ≤ c ≤ 100 →
  int_div (int_of_uint32 (uint32_of_int (int_mul c 10))) 10 = c.
Proof.
  intros Hc. rewrite uint32_of_int_mul.
  rewrite (Z.mod_small (c * 10)) by lia.
  unfold int_of_uint32, int_div.
  rewrite (int_wrap_small (c * 10)) by lia.
  rewrite Z.quot_mul by lia.
  apply int_wrap_small. lia.
Qed.

Lemma to_percent_small w :
  0 ≤ w ≤ 1000 →
  int_div (int_of_uint32 w) 10 = w ÷ 10
  ∧ int_sub 100 (int_div (int_of_uint32 w) 10) = 100 - w ÷ 10.
Proof.
  intros Hw. unfold int_div, int_of_uint32, int_sub.
  rewrite (int_wrap_small w) by lia.
  assert (0 ≤ w ÷ 10 ≤ 100) as Hq.
  { rewrite Z.quot_div_nonneg by lia. split.
    - apply Z.div_pos; lia.
    - apply Z.div_le_upper_bound; lia. }
  rewrite (int_wrap_small (w ÷ 10)) by lia.
  split; [done|]. apply int_wrap_small. lia.
Qed.

(** ** The remote calls *)

Lemma Get_eq ns name w :
  Get ns name w = Returned (Get_result ns name w) (after_call (EvGet ns name) w).
Proof.
  destruct w as [st fs j].
  unfold Get, Get_result, after_call, next_is_faulty, mbind, Op_bind, mret, Op_ret,
    record, next_fault, read_store; simpl.
  destruct fs as [|[] fs]; simpl; try done; by destruct (st !! (ns, name)).
Qed.

Lemma Update_eq ns obj w :
  Update ns obj w = Returned (Update_result ns obj w) (Update_world ns obj w).
Proof.
  destruct w as [st fs j].
  unfold Update, Update_world, Update_result, after_call, next_is_faulty,
    mbind, Op_bind, mret, Op_ret, record, next_fault, read_store, write_store; simpl.
  destruct fs as [|[] fs]; simpl; try done;
    (destruct (st !! (ns, ObjName obj)) as [cur|]; simpl; [|done]);
    by destruct (decide (version cur = ResourceVersion obj)).
Qed.

Lemma bind_eq {A B} (m : Op A) (f : A → Op B) w :
  (m ≫= f) w = match m w with Returned a w' => f a w' | Panicked => Panicked end.
Proof. reflexivity. Qed.

Lemma ret_eq {A} (a : A) w : (mret a : Op A) w = Returned a w.
Proof. reflexivity. Qed.

(** The journal after a call, and the writes in it. *)
Lemma updates_app j1 j2 : updates (j1 ++ j2) = (updates j1 + updates j2)%nat.
Proof. induction j1 as [|e j1 IH]; simpl; [done|]. rewrite IH. lia. Qed.

Lemma journal_after_call e w : journal (after_call e w) = journal w ++ [e].
Proof. reflexivity. Qed.

Lemma journal_Update_world ns obj w :
  journal (Update_world ns obj w) = journal w ++ [EvUpdate ns obj].
Proof. unfold Update_world. by destruct (Update_result ns obj w). Qed.

Lemma store_after_call e w : store (after_call e w) = store w.
Proof. reflexivity. Qed.

(** ** Derived names *)

Lemma string_length_app (s1 s2 : string) :
  String.length (s1 +:+ s2) = (String.length s1 + String.length s2)%nat.
Proof. induction s1 as [|a s1 IH]; simpl; [done|]. by rewrite IH. Qed.

(** The two derived names differ in length, whatever the apex name and port. *)
Lemma primary_ne_canary apexName port :
  Sprintf_primary apexName port ≠ Sprintf_canary apexName port.
Proof.
  unfold Sprintf_primary, Sprintf_canary. intros Heq.
  apply (f_equal String.length) in Heq.
  rewrite !string_length_app in Heq. simpl in Heq. lia.
Qed.

(** ** The range loop *)

Lemma range_find_from_None i name ds :
  range_find_from i name ds = None ↔ Forall (λ d, upstreamName d ≠ name) ds.
Proof.
  revert i. induction ds as [|dst rest IH]; intros i; simpl.
  - split; [constructor | done].
  - case_decide as Hn.
    + split; [done|]. intros Hall. apply Forall_cons in Hall as [Hne _]. done.
    + rewrite IH. split; [by constructor | by intros [_ ?]%Forall_cons].
Qed.

Lemma range_find_from_Some i name ds j dst :
  range_find_from i name ds = Some (j, dst) →
  i ≤ j < i + len ds
  ∧ ds !! Z.to_nat (j - i) = Some dst
  ∧ upstreamName dst = name
  ∧ Forall (λ d, upstreamName d ≠ name) (take (Z.to_nat (j - i)) ds).
Proof.
  unfold len. revert i. induction ds as [|d rest IH]; intros i; simpl; [done|].
  case_decide as Hn.
  - intros [= <- <-]. rewrite Z.sub_diag. simpl. repeat split; try done; try lia.
  - intros Hfind. apply IH in Hfind as (Hj & Hlook & Hname & Hbefore).
    replace (Z.to_nat (j - i)) with (S (Z.to_nat (j - (i + 1)))) by lia.
    simpl. repeat split; try done; try lia. by constructor.
Qed.

Lemma range_find_from_app i name pre dst post :
  Forall (λ d, upstreamName d ≠ name) pre →
  upstreamName dst = name →
  range_find_from i name (pre ++ dst :: post) = Some (i + len pre, dst).
Proof.
  unfold len. intros Hpre Hname. revert i.
  induction Hpre as [|d pre Hd _ IH]; intros i; simpl.
  - rewrite decide_True by done. by rewrite Z.add_0_r.
  - rewrite decide_False by done. rewrite IH. do 2 f_equal. lia.
Qed.

Lemma range_find_Some name ds j dst :
  range_find name ds = Some (j, dst) →
  0 ≤ j < len ds ∧ ds !! Z.to_nat j = Some dst ∧ upstreamName dst = name.
Proof.
  intros (Hj & Hlook & Hname & _)%range_find_from_Some.
  rewrite Z.sub_0_r in Hlook. repeat split; try done; lia.
Qed.

Lemma range_find_None name ds :
  range_find name ds = None ↔ Forall (λ d, upstreamName d ≠ name) ds.
Proof. apply range_find_from_None. Qed.

Lemma range_find_is_Some name ds x :
  x ∈ ds → upstreamName x = name → is_Some (range_find name ds).
Proof.
  intros Hin Hname.
  destruct (range_find name ds) as [r|] eqn:Hfind; [by eexists|].
  apply range_find_None in Hfind.
  rewrite Forall_forall in Hfind. by destruct (Hfind x Hin).
Qed.

(** ** Slices *)

Lemma index_ok {A} (s : list A) i x w :
  0 ≤ i → s !! Z.to_nat i = Some x → index s i w = Returned x w.
Proof. intros Hi Hx. unfold index. rewrite decide_True by done. by rewrite Hx. Qed.

Lemma assign_ok {A} (s : list A) i x w :
  0 ≤ i < len s → assign s i x w = Returned (<[Z.to_nat i := x]> s) w.
Proof. intros Hi. unfold assign. by rewrite decide_True. Qed.

Lemma remove_empty i w : remove [] i w = Panicked.
Proof. reflexivity. Qed.

(** [remove] on an index in range: the element at [i] goes, every other
    element stays exactly once (the last one moves into the hole). *)
Lemma remove_ok s i x w :
  0 ≤ i → s !! Z.to_nat i = Some x →
  ∃ s', remove s i w = Returned s' w
        ∧ s ≡ₚ x :: s'
        ∧ length s = S (length s').
Proof.
  intros Hi Hx.
  destruct (decide (s = [])) as [->|Hne]; [done|].
  destruct (exists_last Hne) as (t & l & ->).
  assert (Z.to_nat i < length (t ++ [l]))%nat as Hlt by (by eapply lookup_lt_Some).
  rewrite length_app in Hlt; simpl in Hlt.
  exists (take (length t) (<[Z.to_nat i := l]> (t ++ [l]))).
  split; [|split].
  - unfold remove. rewrite bind_eq.
    rewrite (index_ok _ _ l).
    + rewrite bind_eq, assign_ok.
      * unfold slice_to, len. rewrite length_insert, length_app. simpl.
        rewrite decide_True by lia. rewrite ret_eq. do 2 f_equal. lia.
      * unfold len. rewrite length_app. simpl. lia.
    + unfold len. rewrite length_app. simpl. lia.
    + unfold len. rewrite length_app. simpl.
      replace (Z.to_nat (Z.of_nat (length t + 1) - 1)) with (length t + 0)%nat by lia.
      by rewrite lookup_app_r, Nat.add_comm, Nat.add_sub by lia.
  - destruct (decide (Z.to_nat i = length t)) as [Heq|Hneq].
    + rewrite Heq in Hx |- *.
      rewrite list_lookup_middle in Hx by done. injection Hx as <-.
      rewrite list_insert_id by (by apply list_lookup_middle).
      rewrite take_app_length. by rewrite Permutation_app_comm.
    + assert (Z.to_nat i < length t)%nat as Hlt' by lia.
      rewrite insert_app_l by done.
      rewrite take_app_length' by (by rewrite length_insert).
      rewrite lookup_app_l in Hx by done.
      rewrite insert_take_drop by done.
      rewrite <- (take_drop_middle t (Z.to_nat i) x Hx) at 1.
      rewrite <- !app_assoc. simpl.
      rewrite <- !Permutation_middle.
      by rewrite app_nil_r.
  - rewrite length_take, length_insert, length_app. simpl. lia.
Qed.

(** ** GetRoutes *)

Lemma Get_Returned ns name w r w' :
  Get ns name w = Returned r w' →
  r = Get_result ns name w ∧ w' = after_call (EvGet ns name) w.
Proof. rewrite Get_eq. by intros [= <- <-]. Qed.

(** The three revisions agree on the length check. *)
Lemma Part000_GetRoutes_short d w g w' :
  Get (CanaryNamespace d) (TargetRefName d) w = Returned (inl g) w' →
  len (Destinations (Spec g)) < 2 →
  Part000.GetRoutes d w =
    Returned (0, 0, false, Some (ErrDestinationsNotFound (TargetRefName d) (CanaryNamespace d))) w'.
Proof.
  intros Hget Hlen. enter_op. rewrite bind_eq, Hget. by rewrite decide_True.
Qed.

Lemma GlooUpsert_GetRoutes_short d w g w' :
  Get (CanaryNamespace d) (TargetRefName d) w = Returned (inl g) w' →
  len (Destinations (Spec g)) < 2 →
  GlooUpsert.GetRoutes d w =
    Returned (0, 0, false, Some (ErrDestinationsNotFound (TargetRefName d) (CanaryNamespace d))) w'.
Proof.
  intros Hget Hlen. enter_op. rewrite bind_eq, Hget. by rewrite decide_True.
Qed.

Lemma GlooReplace_GetRoutes_short d w g w' :
  Get (CanaryNamespace d) (TargetRefName d) w = Returned (inl g) w' →
  len (Destinations (Spec g)) < 2 →
  GlooReplace.GetRoutes d w =
    Returned (0, 0, false, Some (ErrDestinationsNotFound (TargetRefName d) (CanaryNamespace d))) w'.
Proof.
  intros Hget Hlen. enter_op. rewrite bind_eq, Hget. by rewrite decide_True.
Qed.

(** With two entries or more, what each revision answers, by what the
    scan for its reference name finds. *)
Lemma Part000_GetRoutes_long d w g w' :
  Get (CanaryNamespace d) (TargetRefName d) w = Returned (inl g) w' →
  2 ≤ len (Destinations (Spec g)) →
  Part000.GetRoutes d w =
    match range_find (Sprintf_primary (TargetRefName d) (ServicePort d)) (Destinations (Spec g)) with
    | Some (_, dst) =>
        Returned (int_div (int_of_uint32 (Weight dst)) 10,
                  int_sub 100 (int_div (int_of_uint32 (Weight dst)) 10), false, None) w'
    | None => Returned (0, 0, false, None) w'
    end.
Proof.
  intros Hget Hlen. enter_op. rewrite bind_eq, Hget. rewrite decide_False by lia.
  by destruct (range_find _ _) as [[? ?]|].
Qed.

Lemma GlooReplace_GetRoutes_long d w g w' :
  Get (CanaryNamespace d) (TargetRefName d) w = Returned (inl g) w' →
  2 ≤ len (Destinations (Spec g)) →
  GlooReplace.GetRoutes d w =
    match range_find (Sprintf_primary (TargetRefName d) (ServicePort d)) (Destinations (Spec g)) with
    | Some (_, dst) =>
        Returned (int_div (int_of_uint32 (Weight dst)) 10,
                  int_sub 100 (int_div (int_of_uint32 (Weight dst)) 10), false, None) w'
    | None => Returned (0, 0, false, None) w'
    end.
Proof.
  intros Hget Hlen. enter_op. rewrite bind_eq, Hget. rewrite decide_False by lia.
  by destruct (range_find _ _) as [[? ?]|].
Qed.

Lemma GlooUpsert_GetRoutes_long d w g w' :
  Get (CanaryNamespace d) (TargetRefName d) w = Returned (inl g) w' →
  2 ≤ len (Destinations (Spec g)) →
  GlooUpsert.GetRoutes d w =
    match range_find (Sprintf_canary (TargetRefName d) (ServicePort d)) (Destinations (Spec g)) with
    | Some (_, dst) =>
        Returned (int_sub 100 (int_div (int_of_uint32 (Weight dst)) 10),
                  int_div (int_of_uint32 (Weight dst)) 10, false, None) w'
    | None =>
        Returned (0, 0, false,
                  Some (ErrCanaryDestinationNotFound (TargetRefName d) (CanaryNamespace d))) w'
    end.
Proof.
  intros Hget Hlen. enter_op. rewrite bind_eq, Hget. rewrite decide_False by lia.
  by destruct (range_find _ _) as [[? ?]|].
Qed.

(** When the read fails, every revision hands the query error back. *)
Lemma GetRoutes_read_failed d w err w' :
  Get (CanaryNamespace d) (TargetRefName d) w = Returned (inr err) w' →
  let e := Some (ErrGetQuery (TargetRefName d) (CanaryNamespace d) err) in
  Part000.GetRoutes d w = Returned (0, 0, false, e) w'
  ∧ GlooUpsert.GetRoutes d w = Returned (0, 0, false, e) w'
  ∧ GlooReplace.GetRoutes d w = Returned (0, 0, false, e) w'.
Proof.
  intros Hget e. repeat split; enter_op; by rewrite bind_eq, Hget.
Qed.

Lemma fails_with_Some class err :
  fails_with class (Some err) ↔ class err = true.
Proof.
  split; [by intros (? & [= <-] & ?) | intros ?; by exists err].
Qed.

Lemma fails_with_None class : ¬ fails_with class None.
Proof. by intros (? & ? & ?). Qed.

(** C8.  After a successful read, [GetRoutes] fails with the
    insufficient-destinations error ("destinations not found") exactly
    when the stored group has fewer than two destination entries, in each
    of the three revisions. *)
Theorem GetRoutes_insufficient_iff_fewer_than_two d w g w' :
  Get (CanaryNamespace d) (TargetRefName d) w = Returned (inl g) w' →
  (∃ p c m e, Part000.GetRoutes d w = Returned (p, c, m, e) w'
     ∧ (fails_with isInsufficientDestinations e ↔ (length (Destinations (Spec g)) < 2)%nat))
  ∧ (∃ p c m e, GlooUpsert.GetRoutes d w = Returned (p, c, m, e) w'
     ∧ (fails_with isInsufficientDestinations e ↔ (length (Destinations (Spec g)) < 2)%nat))
  ∧ (∃ p c m e, GlooReplace.GetRoutes d w = Returned (p, c, m, e) w'
     ∧ (fails_with isInsufficientDestinations e ↔ (length (Destinations (Spec g)) < 2)%nat)).
Proof.
  intros Hget.
  destruct (decide (len (Destinations (Spec g)) < 2)) as [Hshort|Hlong].
  - assert (length (Destinations (Spec g)) < 2)%nat by (unfold len in Hshort; lia).
    repeat split; do 4 eexists;
      (split;
       [ first [ by apply (Part000_GetRoutes_short d w g)
               | by apply (GlooUpsert_GetRoutes_short d w g)
               | by apply (GlooReplace_GetRoutes_short d w g) ]
       | by rewrite fails_with_Some ]).
  - assert (¬ (length (Destinations (Spec g)) < 2)%nat) by (unfold len in Hlong; lia).
    assert (2 ≤ len (Destinations (Spec g))) as Hlen by lia.
    repeat split.
    + rewrite (Part000_GetRoutes_long d w g w' Hget Hlen).
      destruct (range_find _ _) as [[? ?]|]; do 4 eexists; (split; [done|]);
        split; try done; by intros ?%fails_with_None.
    + rewrite (GlooUpsert_GetRoutes_long d w g w' Hget Hlen).
      destruct (range_find _ _) as [[? ?]|]; do 4 eexists; (split; [done|]);
        split; try done; [by intros ?%fails_with_None | by rewrite fails_with_Some].
    + rewrite (GlooReplace_GetRoutes_long d w g w' Hget Hlen).
      destruct (range_find _ _) as [[? ?]|]; do 4 eexists; (split; [done|]);
        split; try done; by intros ?%fails_with_None.
Qed.

Lemma GetRoutes_insufficient_iff_fewer_than_two_witness :
  let w := world_of [primary_at 1000] in
  let g := object_of "test" "podinfo"
             {| version := 7; spec := {| Destinations := [primary_at 1000] |} |} in
  let w' := after_call (EvGet "test" "podinfo") w in
  Get (CanaryNamespace demo) (TargetRefName demo) w = Returned (inl g) w'
  ∧ (∃ p c m e, Part000.GetRoutes demo w = Returned (p, c, m, e) w'
       ∧ (fails_with isInsufficientDestinations e ↔ (length (Destinations (Spec g)) < 2)%nat))
  ∧ (∃ p c m e, GlooUpsert.GetRoutes demo w = Returned (p, c, m, e) w'
       ∧ (fails_with isInsufficientDestinations e ↔ (length (Destinations (Spec g)) < 2)%nat))
  ∧ (∃ p c m e, GlooReplace.GetRoutes demo w = Returned (p, c, m, e) w'
       ∧ (fails_with isInsufficientDestinations e ↔ (length (Destinations (Spec g)) < 2)%nat)).
Proof.
  intros w g w'.
  assert (Get (CanaryNamespace demo) (TargetRefName demo) w = Returned (inl g) w') as Hget
    by (vm_compute; reflexivity).
  split; [exact Hget|].
  exact (GetRoutes_insufficient_iff_fewer_than_two demo w g w' Hget).
Defined.

(** C9.  In a stored group of at least two entries, let [ref] be the
    first entry bearing the name the revision looks up (the only one when
    names are unique), with a weight in 0..1000.  [GetRoutes] reports that
    entry's percent as its weight divided by 10, truncated, the other
    percent as 100 minus it, [mirrored = false] and no error: the
    reference is the primary in [Part000] and [GlooReplace], the canary
    in [GlooUpsert]. *)
Theorem GetRoutes_percent_of_reference d w g w' name pre ref post :
  Get (CanaryNamespace d) (TargetRefName d) w = Returned (inl g) w' →
  Destinations (Spec g) = pre ++ ref :: post →
  (2 ≤ length (Destinations (Spec g)))%nat →
  Forall (λ x, upstreamName x ≠ name) pre →
  upstreamName ref = name →
  0 ≤ Weight ref ≤ 1000 →
  (name = Sprintf_primary (TargetRefName d) (ServicePort d) →
     Part000.GetRoutes d w =
       Returned (Weight ref ÷ 10, 100 - Weight ref ÷ 10, false, None) w'
     ∧ GlooReplace.GetRoutes d w =
       Returned (Weight ref ÷ 10, 100 - Weight ref ÷ 10, false, None) w')
  ∧ (name = Sprintf_canary (TargetRefName d) (ServicePort d) →
     GlooUpsert.GetRoutes d w =
       Returned (100 - Weight ref ÷ 10, Weight ref ÷ 10, false, None) w').
Proof.
  intros Hget Hds Hlen Hpre Href Hw.
  assert (2 ≤ len (Destinations (Spec g))) as Hlen' by (unfold len; lia).
  assert (range_find name (Destinations (Spec g)) = Some (0 + len pre, ref)) as Hfind.
  { rewrite Hds. by apply range_find_from_app. }
  destruct (to_percent_small (Weight ref) Hw) as [Hdiv Hsub].
  split; intros ->.
  - rewrite (Part000_GetRoutes_long d w g w' Hget Hlen').
    rewrite (GlooReplace_GetRoutes_long d w g w' Hget Hlen').
    rewrite Hfind, Hsub, Hdiv. done.
  - rewrite (GlooUpsert_GetRoutes_long d w g w' Hget Hlen').
    rewrite Hfind, Hsub, Hdiv. done.
Qed.

Lemma GetRoutes_percent_of_reference_witness :
  let w := world_of [primary_at 700; canary_at 300] in
  let w' := after_call (EvGet "test" "podinfo") w in
  Part000.GetRoutes demo w = Returned (70, 30, false, None) w'
  ∧ GlooReplace.GetRoutes demo w = Returned (70, 30, false, None) w'
  ∧ GlooUpsert.GetRoutes demo w = Returned (70, 30, false, None) w'.
Proof.
  intros w w'.
  pose (g := object_of "test" "podinfo"
               {| version := 7;
                  spec := {| Destinations := [primary_at 700; canary_at 300] |} |}).
  assert (Get (CanaryNamespace demo) (TargetRefName demo) w = Returned (inl g) w') as Hget
    by (vm_compute; reflexivity).
  assert (Forall (λ x, upstreamName x ≠ "podinfo-canary-9898") [primary_at 700]) as Hpre
    by (constructor; [by vm_compute | constructor]).
  destruct (GetRoutes_percent_of_reference demo w g w' "podinfo-9898"
              [] (primary_at 700) [canary_at 300] Hget eq_refl
              ltac:(simpl; lia) ltac:(constructor) eq_refl ltac:(simpl; lia))
    as [Hprimary _].
  destruct (GetRoutes_percent_of_reference demo w g w' "podinfo-canary-9898"
              [primary_at 700] (canary_at 300) [] Hget eq_refl
              ltac:(simpl; lia) Hpre eq_refl ltac:(simpl; lia))
    as [_ Hcanary].
  destruct (Hprimary eq_refl) as [H1 H2].
  pose proof (Hcanary eq_refl) as H3.
  repeat split; assumption.
Defined.

(** X25.  [GetRoutes] of [GlooUpsert], on two entries or more of which
    none bears the canary name, reports the canary destination as not
    found and returns the zero percents. *)
Lemma GlooUpsert_GetRoutes_reference_missing d w g w' :
  Get (CanaryNamespace d) (TargetRefName d) w = Returned (inl g) w' →
  (2 ≤ length (Destinations (Spec g)))%nat →
  Forall (λ x, upstreamName x ≠ Sprintf_canary (TargetRefName d) (ServicePort d))
         (Destinations (Spec g)) →
  ∃ e, GlooUpsert.GetRoutes d w = Returned (0, 0, false, e) w'
       ∧ fails_with isDestinationNotFound e.
Proof.
  intros Hget Hlen Hall.
  rewrite (GlooUpsert_GetRoutes_long d w g w' Hget) by (unfold len; lia).
  apply range_find_None in Hall. rewrite Hall.
  eexists. split; [done|]. by rewrite fails_with_Some.
Qed.

(** On the same kind of group, [Part000] and [GlooReplace] fall out of the
    loop and return the zero values of the named results, error included. *)
Lemma primary_keyed_GetRoutes_reference_missing d w g w' :
  Get (CanaryNamespace d) (TargetRefName d) w = Returned (inl g) w' →
  (2 ≤ length (Destinations (Spec g)))%nat →
  Forall (λ x, upstreamName x ≠ Sprintf_primary (TargetRefName d) (ServicePort d))
         (Destinations (Spec g)) →
  Part000.GetRoutes d w = Returned (0, 0, false, None) w'
  ∧ GlooReplace.GetRoutes d w = Returned (0, 0, false, None) w'.
Proof.
  intros Hget Hlen Hall.
  rewrite (Part000_GetRoutes_long d w g w' Hget) by (unfold len; lia).
  rewrite (GlooReplace_GetRoutes_long d w g w' Hget) by (unfold len; lia).
  apply range_find_None in Hall. by rewrite Hall.
Qed.

(** C7.  On a group of two entries named "blue" and "green", neither of
    them the derived primary name, [GetRoutes] of [Part000] and of
    [GlooReplace] returns the weights (0, 0) with a nil error, where the
    specification asks for a destination-not-found error; [GlooUpsert] returns
    that error on the same group. *)
Theorem GetRoutes_missing_reference_returns_nil_error :
  let w := world_of [mkWD "blue" "test" 700; mkWD "green" "test" 300] in
  result_of (Part000.GetRoutes demo w) = Some (0, 0, false, None)
  ∧ result_of (GlooReplace.GetRoutes demo w) = Some (0, 0, false, None)
  ∧ result_of (GlooUpsert.GetRoutes demo w)
    = Some (0, 0, false, Some (ErrCanaryDestinationNotFound "podinfo" "test")).
Proof. vm_compute. done. Qed.

(** ** SetRoutes *)

Lemma zero_zero_rejected_everywhere d m w :
  let e := ErrNoValidWeights (TargetRefName d) (CanaryNamespace d) in
  Part000.SetRoutes d 0 0 m w = Returned (Some e) w
  ∧ GlooUpsert.SetRoutes d 0 0 m w = Returned (Some e) w
  ∧ GlooReplace.SetRoutes d 0 0 m w = Returned (Some e) w.
Proof.
  intros e. repeat split; enter_op; by rewrite decide_True.
Qed.

(** C6.  [SetRoutes(d, 0, 0, _)] returns the no-valid-weights error in
    every revision and leaves the world as it was: nothing is added to the
    journal (no [Get], no [Update]) and the store is the same. *)
Theorem SetRoutes_zero_zero_rejected d m w :
  let e := ErrNoValidWeights (TargetRefName d) (CanaryNamespace d) in
  isInvalidWeights e = true
  ∧ Part000.SetRoutes d 0 0 m w = Returned (Some e) w
  ∧ GlooUpsert.SetRoutes d 0 0 m w = Returned (Some e) w
  ∧ GlooReplace.SetRoutes d 0 0 m w = Returned (Some e) w.
Proof.
  intros e. split; [done|]. apply zero_zero_rejected_everywhere.
Qed.

(** What a successful read says about the world. *)
Lemma Get_inl ns name w g w' :
  Get ns name w = Returned (inl g) w' →
  ∃ s, store w !! (ns, name) = Some s
       ∧ g = object_of ns name s
       ∧ next_is_faulty w = false
       ∧ w' = after_call (EvGet ns name) w.
Proof.
  intros [Hres ->]%Get_Returned. unfold Get_result in Hres.
  destruct (next_is_faulty w); [done|].
  destruct (store w !! (ns, name)) as [s|]; [|done].
  injection Hres as ->. by exists s.
Qed.

Lemma Get_inr ns name w err w' :
  Get ns name w = Returned (inr err) w' → w' = after_call (EvGet ns name) w.
Proof. by intros [_ ->]%Get_Returned. Qed.

(** What a write that went through leaves on the server. *)
Lemma Update_result_inl ns obj w o :
  Update_result ns obj w = inl o →
  store (Update_world ns obj w)
  = <[(ns, ObjName obj) := {| version := ResourceVersion o; spec := Spec obj |}]> (store w).
Proof.
  intros Hres. unfold Update_world. rewrite Hres. simpl.
  unfold Update_result in Hres.
  destruct (next_is_faulty w); [done|].
  destruct (store w !! (ns, ObjName obj)) as [cur|]; [|done].
  destruct (decide _); [|done]. by injection Hres as <-.
Qed.

Lemma Update_result_inr ns obj w err :
  Update_result ns obj w = inr err →
  store (Update_world ns obj w) = store w.
Proof. intros Hres. unfold Update_world. by rewrite Hres. Qed.

Lemma faults_Update_world ns obj w :
  faults (Update_world ns obj w) = tail (faults w).
Proof. unfold Update_world. by destruct (Update_result ns obj w). Qed.

(** With no transport fault and no writer in between, the write under the
    version just read goes through. *)
Lemma Update_after_Get_ok ns name s w ds :
  store w !! (ns, name) = Some s →
  next_is_faulty w = false →
  ∃ o, Update_result ns (withDestinations (object_of ns name s) ds) w = inl o.
Proof.
  intros Hs Hf. unfold Update_result. rewrite Hf. simpl. rewrite Hs. simpl.
  rewrite decide_True by done. by eexists.
Qed.

(** *** [GlooUpsert]: the weight goes into the slice element *)

Lemma range_find_from_insert k name ds i dst w :
  range_find_from k name ds = Some (i, dst) →
  range_find_from k name (<[Z.to_nat (i - k) := withWeight dst w]> ds)
  = Some (i, withWeight dst w).
Proof.
  revert k. induction ds as [|d rest IH]; intros k; simpl; [done|].
  case_decide as Hn.
  - intros [= <- <-]. rewrite Z.sub_diag. simpl. by rewrite decide_True.
  - intros Hfind.
    pose proof (range_find_from_Some _ _ _ _ _ Hfind) as (Hi & _).
    replace (Z.to_nat (i - k)) with (S (Z.to_nat (i - (k + 1)))) by lia.
    simpl. rewrite decide_False by done. by apply IH.
Qed.

Lemma range_find_insert name ds i dst w :
  range_find name ds = Some (i, dst) →
  range_find name (<[Z.to_nat i := withWeight dst w]> ds) = Some (i, withWeight dst w).
Proof.
  intros Hfind. pose proof (range_find_from_insert 0 name ds i dst w Hfind) as H.
  by rewrite Z.sub_0_r in H.
Qed.

(** The destination list [SetRoutes] of [GlooUpsert] sends to the server. *)
Lemma GlooUpsert_SetRoutes_eq d p c m w g w1 :
  ¬ (p = 0 ∧ c = 0) →
  Get (CanaryNamespace d) (TargetRefName d) w = Returned (inl g) w1 →
  let ds := Destinations (Spec g) in
  let ds' :=
    match range_find (Sprintf_canary (TargetRefName d) (ServicePort d)) ds with
    | Some (i, dst) => <[Z.to_nat i := withWeight dst (uint32_of_int (int_mul c 10))]> ds
    | None => ds
    end in
  let obj := withDestinations g ds' in
  GlooUpsert.SetRoutes d p c m w
  = Returned (match Update_result (CanaryNamespace d) obj w1 with
              | inr err => Some (ErrUpdate (TargetRefName d) (CanaryNamespace d) err)
              | inl _ => None
              end)
             (Update_world (CanaryNamespace d) obj w1).
Proof.
  intros Hnz Hget ds ds' obj. enter_op. rewrite decide_False by done.
  rewrite bind_eq, Hget. fold ds. subst obj ds'.
  destruct (range_find _ ds) as [[i dst]|] eqn:Hfind.
  - apply range_find_Some in Hfind as (Hi & Hlook & _).
    rewrite bind_eq, bind_eq, (index_ok ds i dst) by (done || lia).
    rewrite assign_ok by done.
    rewrite bind_eq, Update_eq. by destruct (Update_result _ _ _).
  - rewrite bind_eq, ret_eq, bind_eq, Update_eq. by destruct (Update_result _ _ _).
Qed.

Lemma two_distinct_members {A} (l : list A) x y :
  x ∈ l → y ∈ l → x ≠ y → (2 ≤ length l)%nat.
Proof.
  intros Hx Hy Hne. destruct l as [|a [|b l]]; simpl; [| |lia].
  - by apply elem_of_nil in Hx.
  - apply list_elem_of_singleton in Hx. apply list_elem_of_singleton in Hy. congruence.
Qed.

(** X19.  Round trip in [GlooUpsert]: after a successful [SetRoutes(d, p, c, _)]
    with [p + c = 100] on a group that holds the derived primary and
    canary entries, the next [GetRoutes(d)] whose read goes through
    returns [(p, c, false)] and no error. *)
Lemma GlooUpsert_SetRoutes_GetRoutes_roundtrip d p c m w w' ds x y :
  0 ≤ p → 0 ≤ c → p + c = 100 →
  stored_at (CanaryNamespace d) (TargetRefName d) w = Some ds →
  x ∈ ds → upstreamName x = Sprintf_primary (TargetRefName d) (ServicePort d) →
  y ∈ ds → upstreamName y = Sprintf_canary (TargetRefName d) (ServicePort d) →
  GlooUpsert.SetRoutes d p c m w = Returned None w' →
  next_is_faulty w' = false →
  GlooUpsert.GetRoutes d w'
  = Returned (p, c, false, None)
             (after_call (EvGet (CanaryNamespace d) (TargetRefName d)) w').
Proof.
  intros Hp Hc Hsum Hstored Hx Hxn Hy Hyn Hset Hok.
  set (ns := CanaryNamespace d) in *. set (apex := TargetRefName d) in *.
  set (cn := Sprintf_canary apex (ServicePort d)) in *.
  assert (¬ (p = 0 ∧ c = 0)) as Hnz by lia.
  destruct (Get ns apex w) as [[g|err] w1|] eqn:Hget.
  2:{ revert Hset. enter_op. rewrite decide_False by done.
      fold ns apex. by rewrite bind_eq, Hget. }
  2:{ by rewrite Get_eq in Hget. }
  rewrite (GlooUpsert_SetRoutes_eq d p c m w g w1 Hnz Hget) in Hset.
  fold ns apex cn in Hset.
  apply Get_inl in Hget as (s & Hs & -> & Hf & ->).
  unfold stored_at in Hstored. rewrite Hs in Hstored. simpl in Hstored.
  injection Hstored as Hds. simpl in Hset. rewrite Hds in Hset.
  destruct (range_find_is_Some cn ds y Hy Hyn) as [[i dst] Hfind].
  rewrite Hfind in Hset.
  match type of Hset with
  | Returned (match Update_result ?n ?o ?w0 with _ => _ end) _ = _ =>
      destruct (Update_result n o w0) as [o'|err] eqn:Hupd; [|done];
      pose proof (Update_result_inl n o w0 o' Hupd) as Hstore
  end.
  injection Hset as <-. simpl in Hstore.
  set (ds' := <[Z.to_nat i := withWeight dst (uint32_of_int (int_mul c 10))]> ds) in *.
  set (g' := object_of ns apex {| version := ResourceVersion o'; spec := {| Destinations := ds' |} |}).
  assert (Get ns apex (Update_world ns
            (withDestinations (object_of ns apex s) ds') (after_call (EvGet ns apex) w))
          = Returned (inl g') (after_call (EvGet ns apex) (Update_world ns
              (withDestinations (object_of ns apex s) ds') (after_call (EvGet ns apex) w))))
    as Hget'.
  { rewrite Get_eq. f_equal. unfold Get_result. rewrite Hok, Hstore.
    by rewrite lookup_insert_eq. }
  assert (x ≠ y) as Hxy.
  { intros ->. apply (primary_ne_canary apex (ServicePort d)).
    rewrite <- Hxn. exact Hyn. }
  pose proof (two_distinct_members ds x y Hx Hy Hxy) as Hlen.
  rewrite (GlooUpsert_GetRoutes_long d _ g' _ Hget')
    by (unfold len; simpl; unfold ds'; rewrite length_insert; lia).
  simpl. fold apex cn. unfold ds'. rewrite (range_find_insert cn ds i dst _ Hfind).
  simpl. rewrite percent_roundtrip by lia.
  unfold int_sub. rewrite int_wrap_small by lia. do 4 f_equal. lia.
Qed.

(** *** [GlooReplace]: the two canonical entries replace the list *)

Lemma GlooReplace_SetRoutes_eq d p c m w g w1 :
  ¬ (p = 0 ∧ c = 0) →
  Get (CanaryNamespace d) (TargetRefName d) w = Returned (inl g) w1 →
  let ns := CanaryNamespace d in
  let obj :=
    withDestinations g
      [mkWD (Sprintf_primary (TargetRefName d) (ServicePort d)) ns
            (uint32_of_int (int_mul p 10));
       mkWD (Sprintf_canary (TargetRefName d) (ServicePort d)) ns
            (uint32_of_int (int_mul c 10))] in
  GlooReplace.SetRoutes d p c m w
  = Returned (match Update_result ns obj w1 with
              | inr err => Some (ErrUpdate (TargetRefName d) ns err)
              | inl _ => None
              end)
             (Update_world ns obj w1).
Proof.
  intros Hnz Hget ns obj. enter_op. rewrite decide_False by done.
  rewrite bind_eq, Hget, bind_eq, Update_eq. subst obj ns.
  by destruct (Update_result _ _ _).
Qed.

(** X20.  Round trip in [GlooReplace]: after a successful [SetRoutes(d, p, c, _)]
    with [p + c = 100], the next [GetRoutes(d)] whose read goes through
    returns [(p, c, false)] and no error. *)
Lemma GlooReplace_SetRoutes_GetRoutes_roundtrip d p c m w w' :
  0 ≤ p → 0 ≤ c → p + c = 100 →
  GlooReplace.SetRoutes d p c m w = Returned None w' →
  next_is_faulty w' = false →
  GlooReplace.GetRoutes d w'
  = Returned (p, c, false, None)
             (after_call (EvGet (CanaryNamespace d) (TargetRefName d)) w').
Proof.
  intros Hp Hc Hsum Hset Hok.
  set (ns := CanaryNamespace d) in *. set (apex := TargetRefName d) in *.
  assert (¬ (p = 0 ∧ c = 0)) as Hnz by lia.
  destruct (Get ns apex w) as [[g|err] w1|] eqn:Hget.
  2:{ revert Hset. enter_op. rewrite decide_False by done.
      fold ns apex. by rewrite bind_eq, Hget. }
  2:{ by rewrite Get_eq in Hget. }
  rewrite (GlooReplace_SetRoutes_eq d p c m w g w1 Hnz Hget) in Hset.
  fold ns apex in Hset.
  apply Get_inl in Hget as (s & Hs & -> & Hf & ->).
  match type of Hset with
  | Returned (match Update_result ?n ?o ?w0 with _ => _ end) _ = _ =>
      destruct (Update_result n o w0) as [o'|err] eqn:Hupd; [|done];
      pose proof (Update_result_inl n o w0 o' Hupd) as Hstore
  end.
  injection Hset as <-. simpl in Hstore.
  set (ds' := [mkWD (Sprintf_primary apex (ServicePort d)) ns (uint32_of_int (int_mul p 10));
               mkWD (Sprintf_canary apex (ServicePort d)) ns (uint32_of_int (int_mul c 10))])
    in *.
  set (g' := object_of ns apex
               {| version := ResourceVersion o'; spec := {| Destinations := ds' |} |}).
  assert (Get ns apex (Update_world ns
            (withDestinations (object_of ns apex s) ds') (after_call (EvGet ns apex) w))
          = Returned (inl g') (after_call (EvGet ns apex) (Update_world ns
              (withDestinations (object_of ns apex s) ds') (after_call (EvGet ns apex) w))))
    as Hget'.
  { rewrite Get_eq. f_equal. unfold Get_result. rewrite Hok, Hstore.
    by rewrite lookup_insert_eq. }
  rewrite (GlooReplace_GetRoutes_long d _ g' _ Hget') by (by vm_compute).
  simpl. fold apex. unfold range_find. simpl. rewrite decide_True by done.
  simpl. rewrite percent_roundtrip by lia.
  unfold int_sub. rewrite int_wrap_small by lia. do 4 f_equal. lia.
Qed.

(** *** [Part000]: the weight goes into the loop's copy *)

(** [SetRoutes] of [Part000] sends back the object it read. *)
Lemma Part000_SetRoutes_eq d p c m w g w1 :
  ¬ (p = 0 ∧ c = 0) →
  Get (CanaryNamespace d) (TargetRefName d) w = Returned (inl g) w1 →
  Part000.SetRoutes d p c m w
  = Returned (match Update_result (CanaryNamespace d) g w1 with
              | inr err => Some (ErrUpdate (TargetRefName d) (CanaryNamespace d) err)
              | inl _ => None
              end)
             (Update_world (CanaryNamespace d) g w1).
Proof.
  intros Hnz Hget. enter_op. rewrite decide_False by done.
  rewrite bind_eq, Hget, bind_eq, Update_eq.
  by destruct (Update_result _ _ _).
Qed.

(** X21.  Whatever the percents and whatever it returns, [SetRoutes] of
    [Part000] leaves every stored destination list as it was. *)
Lemma Part000_SetRoutes_keeps_destinations d p c m w e w' :
  Part000.SetRoutes d p c m w = Returned e w' →
  ∀ ns name, stored_at ns name w' = stored_at ns name w.
Proof.
  intros Hset ns name.
  destruct (decide (p = 0 ∧ c = 0)) as [Hz|Hnz].
  { revert Hset. enter_op. rewrite decide_True by done. by intros [= _ <-]. }
  destruct (Get (CanaryNamespace d) (TargetRefName d) w) as [[g|err] w1|] eqn:Hget.
  - rewrite (Part000_SetRoutes_eq d p c m w g w1 Hnz Hget) in Hset.
    injection Hset as _ <-.
    apply Get_inl in Hget as (s & Hs & -> & Hf & ->).
    unfold stored_at.
    destruct (Update_result (CanaryNamespace d)
                (object_of (CanaryNamespace d) (TargetRefName d) s)
                (after_call (EvGet (CanaryNamespace d) (TargetRefName d)) w))
      as [o|err] eqn:Hupd.
    + rewrite (Update_result_inl _ _ _ _ Hupd). simpl.
      destruct (decide ((CanaryNamespace d, TargetRefName d) = (ns, name))) as [<-|Hne].
      * rewrite lookup_insert_eq, Hs. done.
      * by rewrite lookup_insert_ne.
    + by rewrite (Update_result_inr _ _ _ _ Hupd).
  - revert Hset. enter_op. rewrite decide_False by done.
    rewrite bind_eq, Hget. intros [= _ <-].
    by rewrite (Get_inr _ _ _ _ _ Hget).
  - by rewrite Get_eq in Hget.
Qed.

(** C1.  In [Part000], on a group holding primary at 1000 and canary at
    0, [SetRoutes(d, 70, 30, false)] succeeds, the server still holds the
    weights 1000 and 0, and the [GetRoutes(d)] that follows returns
    (100, 0, false) where the specification asks for (70, 30, false).  On the
    same group [GlooUpsert] and [GlooReplace] return (70, 30, false). *)
Theorem Part000_SetRoutes_GetRoutes_roundtrip_lost :
  let w := world_of [primary_at 1000; canary_at 0] in
  result_of (Part000.SetRoutes demo 70 30 false w) = Some None
  ∧ (world_after (Part000.SetRoutes demo 70 30 false w) ≫= stored_destinations)
    = Some [primary_at 1000; canary_at 0]
  ∧ (w' ← world_after (Part000.SetRoutes demo 70 30 false w);
     result_of (Part000.GetRoutes demo w'))
    = Some (100, 0, false, None)
  ∧ (w' ← world_after (GlooUpsert.SetRoutes demo 70 30 false w);
     result_of (GlooUpsert.GetRoutes demo w'))
    = Some (70, 30, false, None)
  ∧ (w' ← world_after (GlooReplace.SetRoutes demo 70 30 false w);
     result_of (GlooReplace.GetRoutes demo w'))
    = Some (70, 30, false, None).
Proof. vm_compute. done. Qed.

(** ** Reconcile *)

Lemma record_eq e w : record e w = Returned tt (logged e w).
Proof. reflexivity. Qed.

Lemma updates_logged_info b name ns w :
  updates (journal (logged (EvInfo b name ns) w)) = updates (journal w).
Proof. simpl. rewrite updates_app. simpl. lia. Qed.

Lemma updates_after_Get ns name w :
  updates (journal (after_call (EvGet ns name) w)) = updates (journal w).
Proof. simpl. rewrite updates_app. simpl. lia. Qed.

Lemma updates_Update_world ns obj w :
  updates (journal (Update_world ns obj w)) = S (updates (journal w)).
Proof. rewrite journal_Update_world, updates_app. simpl. lia. Qed.

(** *** [GlooUpsert]: append the canary when it is missing *)

Lemma GlooUpsert_Reconcile_eq d w g w1 :
  Get (CanaryNamespace d) (TargetRefName d) w = Returned (inl g) w1 →
  let ns := CanaryNamespace d in
  let canaryName := Sprintf_canary (TargetRefName d) (ServicePort d) in
  let ds := Destinations (Spec g) in
  let info := EvInfo false (ObjName g) ns in
  GlooUpsert.Reconcile d w
  = match range_find canaryName ds with
    | Some _ => Returned None (logged info w1)
    | None =>
        let obj := withDestinations g (ds ++ [mkWD canaryName ns 0]) in
        match Update_result ns obj w1 with
        | inr err => Returned (Some (ErrUpdate (TargetRefName d) ns err)) (Update_world ns obj w1)
        | inl _ => Returned None (logged info (Update_world ns obj w1))
        end
    end.
Proof.
  intros Hget ns canaryName ds info. enter_op. rewrite bind_eq, Hget.
  fold ns canaryName ds.
  destruct (range_find canaryName ds) as [[i dst]|]; [done|].
  rewrite bind_eq, Update_eq. simpl.
  by destruct (Update_result _ _ _).
Qed.

Lemma Reconcile_read_failed d w err w1 :
  Get (CanaryNamespace d) (TargetRefName d) w = Returned (inr err) w1 →
  let e := if IsNotFound err then ErrNotFound (TargetRefName d) (CanaryNamespace d)
           else ErrGetQuery (TargetRefName d) (CanaryNamespace d) err in
  Part000.Reconcile d w = Returned (Some e) w1
  ∧ GlooUpsert.Reconcile d w = Returned (Some e) w1
  ∧ GlooReplace.Reconcile d w = Returned (Some e) w1.
Proof.
  intros Hget e. subst e.
  repeat split; enter_op; rewrite bind_eq, Hget; by destruct (IsNotFound err).
Qed.

(** X24.  The upsert of [GlooUpsert], on a read that goes through.  Canary
    entry present: no write, the stored list (weights included) stays.
    Absent: one write of the original entries, in order, followed by the
    canary entry at weight zero. *)
Lemma GlooUpsert_Reconcile_upsert d w g w1 :
  Get (CanaryNamespace d) (TargetRefName d) w = Returned (inl g) w1 →
  let ns := CanaryNamespace d in
  let canaryName := Sprintf_canary (TargetRefName d) (ServicePort d) in
  let ds := Destinations (Spec g) in
  ∃ e w2, GlooUpsert.Reconcile d w = Returned e w2
    ∧ ((∃ x, x ∈ ds ∧ upstreamName x = canaryName) →
         e = None ∧ store w2 = store w ∧ updates (journal w2) = updates (journal w))
    ∧ (Forall (λ x, upstreamName x ≠ canaryName) ds →
         updates (journal w2) = S (updates (journal w))
         ∧ (e = None → stored_at ns (TargetRefName d) w2 = Some (ds ++ [mkWD canaryName ns 0]))
         ∧ (e ≠ None → store w2 = store w)).
Proof.
  intros Hget ns canaryName ds.
  rewrite (GlooUpsert_Reconcile_eq d w g w1 Hget). fold ns canaryName ds.
  apply Get_inl in Hget as (s & Hs & -> & Hf & ->). fold ns in Hs |- *.
  destruct (range_find canaryName ds) as [[i dst]|] eqn:Hfind.
  - do 2 eexists. split; [done|]. split.
    + intros _. repeat split; try done.
      by rewrite updates_logged_info, updates_after_Get.
    + intros Hall%range_find_None. congruence.
  - simpl.
    destruct (Update_result _ _ _) as [o|err] eqn:Hupd;
      (do 2 eexists; split; [done|]); split.
    + intros (x & Hx & Hxn). apply range_find_None in Hfind.
      rewrite Forall_forall in Hfind. by destruct (Hfind x Hx).
    + intros _. split; [|split; [|done]].
      * by rewrite updates_logged_info, updates_Update_world, updates_after_Get.
      * intros _. unfold stored_at. simpl.
        rewrite (Update_result_inl _ _ _ _ Hupd). simpl.
        by rewrite lookup_insert_eq.
    + intros (x & Hx & Hxn). apply range_find_None in Hfind.
      rewrite Forall_forall in Hfind. by destruct (Hfind x Hx).
    + intros _. split; [|split; [done|]].
      * by rewrite updates_Update_world, updates_after_Get.
      * intros _. by rewrite (Update_result_inr _ _ _ _ Hupd).
Qed.

(** A [Reconcile] of [GlooUpsert] that returns nil leaves a canary entry
    on the server. *)
Lemma GlooUpsert_Reconcile_establishes d w w1 :
  GlooUpsert.Reconcile d w = Returned None w1 →
  ∃ ds x, stored_at (CanaryNamespace d) (TargetRefName d) w1 = Some ds
          ∧ x ∈ ds
          ∧ upstreamName x = Sprintf_canary (TargetRefName d) (ServicePort d).
Proof.
  intros Hrec.
  destruct (Get (CanaryNamespace d) (TargetRefName d) w) as [[g|err] w0|] eqn:Hget.
  - rewrite (GlooUpsert_Reconcile_eq d w g w0 Hget) in Hrec.
    apply Get_inl in Hget as (s & Hs & -> & Hf & ->).
    destruct (range_find _ _) as [[i dst]|] eqn:Hfind.
    + injection Hrec as <-.
      apply range_find_Some in Hfind as (_ & Hlook & Hname).
      exists (Destinations (spec s)), dst. unfold stored_at. simpl. rewrite Hs.
      repeat split; try done. by eapply list_elem_of_lookup_2.
    + simpl in Hrec.
      destruct (Update_result _ _ _) as [o|err] eqn:Hupd; [|done].
      injection Hrec as <-.
      exists (Destinations (spec s)
                ++ [mkWD (Sprintf_canary (TargetRefName d) (ServicePort d))
                         (CanaryNamespace d) 0]),
             (mkWD (Sprintf_canary (TargetRefName d) (ServicePort d)) (CanaryNamespace d) 0).
      unfold stored_at. simpl.
      rewrite (Update_result_inl _ _ _ _ Hupd). simpl. rewrite lookup_insert_eq. simpl.
      split; [reflexivity|]. split; [|reflexivity].
      apply elem_of_app. right. by apply list_elem_of_singleton.
  - destruct (Reconcile_read_failed d w err w0 Hget) as (_ & H & _). congruence.
  - by rewrite Get_eq in Hget.
Qed.

(** With a canary entry on the server, [Reconcile] of [GlooUpsert] issues
    no [Update] and leaves the store alone, whether its read goes through
    or not. *)
Lemma GlooUpsert_Reconcile_settled d w ds x e w2 :
  stored_at (CanaryNamespace d) (TargetRefName d) w = Some ds →
  x ∈ ds → upstreamName x = Sprintf_canary (TargetRefName d) (ServicePort d) →
  GlooUpsert.Reconcile d w = Returned e w2 →
  updates (journal w2) = updates (journal w) ∧ store w2 = store w.
Proof.
  intros Hstored Hx Hxn Hrec.
  destruct (Get (CanaryNamespace d) (TargetRefName d) w) as [[g|err] w0|] eqn:Hget.
  - rewrite (GlooUpsert_Reconcile_eq d w g w0 Hget) in Hrec.
    apply Get_inl in Hget as (s & Hs & -> & Hf & ->).
    unfold stored_at in Hstored. rewrite Hs in Hstored. injection Hstored as Hds.
    simpl in Hrec. rewrite Hds in Hrec.
    destruct (range_find_is_Some _ ds x Hx Hxn) as [[i dst] Hfind].
    rewrite Hfind in Hrec. injection Hrec as _ <-.
    by rewrite updates_logged_info, updates_after_Get.
  - destruct (Reconcile_read_failed d w err w0 Hget) as (_ & H & _).
    rewrite H in Hrec. injection Hrec as _ <-.
    apply Get_inr in Hget as ->. by rewrite updates_after_Get.
  - by rewrite Get_eq in Hget.
Qed.

(** X22.  Idempotence in [GlooUpsert]: after a [Reconcile] that returned
    nil, the next one issues no [Update] and leaves the store alone; the
    two calls together issue at most one. *)
Lemma GlooUpsert_Reconcile_twice d w w1 e w2 :
  GlooUpsert.Reconcile d w = Returned None w1 →
  GlooUpsert.Reconcile d w1 = Returned e w2 →
  updates (journal w2) = updates (journal w1)
  ∧ store w2 = store w1
  ∧ (updates (journal w2) ≤ S (updates (journal w)))%nat.
Proof.
  intros H1 H2.
  destruct (GlooUpsert_Reconcile_establishes d w w1 H1) as (ds & x & Hst & Hx & Hxn).
  destruct (GlooUpsert_Reconcile_settled d w1 ds x e w2 Hst Hx Hxn H2) as [Hu Hs].
  repeat split; try done. rewrite Hu.
  destruct (Get (CanaryNamespace d) (TargetRefName d) w) as [[g|err] w0|] eqn:Hget.
  - rewrite (GlooUpsert_Reconcile_eq d w g w0 Hget) in H1.
    apply Get_inl in Hget as (s & _ & -> & _ & ->).
    destruct (range_find _ _) as [[i dst]|].
    + injection H1 as <-. rewrite updates_logged_info, updates_after_Get. lia.
    + simpl in H1. destruct (Update_result _ _ _); [|done].
      injection H1 as <-.
      rewrite updates_logged_info, updates_Update_world, updates_after_Get. lia.
  - destruct (Reconcile_read_failed d w err w0 Hget) as (_ & H & _). congruence.
  - by rewrite Get_eq in Hget.
Qed.

(** *** [GlooReplace]: replace the spec when its shape differs *)

Lemma GlooReplace_Reconcile_eq d w g w1 :
  Get (CanaryNamespace d) (TargetRefName d) w = Returned (inl g) w1 →
  let ns := CanaryNamespace d in
  let clone :=
    {| ObjName := ObjName g; ObjNamespace := ObjNamespace g;
       ResourceVersion := ResourceVersion g; Spec := canonical_spec d |} in
  GlooReplace.Reconcile d w
  = if GlooReplace.DiffIgnoringWeight (canonical_spec d) (Spec g) then
      match Update_result ns clone w1 with
      | inr err => Returned (Some (ErrUpdate (TargetRefName d) ns err)) (Update_world ns clone w1)
      | inl _ =>
          Returned None (logged (EvInfo true (ObjName g) ns) (Update_world ns clone w1))
      end
    else Returned None w1.
Proof.
  intros Hget ns clone. enter_op. rewrite bind_eq, Hget.
  fold (canonical_spec d).
  destruct (GlooReplace.DiffIgnoringWeight _ _); [|done].
  rewrite bind_eq, Update_eq. by destruct (Update_result _ _ _).
Qed.

Lemma DiffIgnoringWeight_refl x : GlooReplace.DiffIgnoringWeight x x = false.
Proof. unfold GlooReplace.DiffIgnoringWeight. by rewrite decide_True. Qed.

(** The comparison ignores weights and nothing else. *)
Lemma same_Dest_Forall2 (l l' : list WeightedDestination) :
  Dest <$> l = Dest <$> l' ↔ Forall2 (λ a b, Dest a = Dest b) l l'.
Proof.
  revert l'. induction l as [|a l IH]; intros [|b l']; simpl; split; try done.
  - intros H. inversion H.
  - intros H. inversion H.
  - intros [= Hab Hl]. constructor; [done | by apply IH].
  - intros H. inversion H as [|? ? ? ? Hab Hl]; subst.
    rewrite Hab. f_equal. by apply IH.
Qed.

Lemma DiffIgnoringWeight_false x y :
  GlooReplace.DiffIgnoringWeight x y = false ↔
  Forall2 (λ a b, Dest a = Dest b) (Destinations x) (Destinations y).
Proof.
  unfold GlooReplace.DiffIgnoringWeight. rewrite <- same_Dest_Forall2.
  by case_decide.
Qed.

(** A [Reconcile] of [GlooReplace] that returns nil leaves on the server
    a spec with the canonical shape. *)
Lemma GlooReplace_Reconcile_establishes d w w1 :
  GlooReplace.Reconcile d w = Returned None w1 →
  ∃ s, store w1 !! (CanaryNamespace d, TargetRefName d) = Some s
       ∧ GlooReplace.DiffIgnoringWeight (canonical_spec d) (spec s) = false.
Proof.
  intros Hrec.
  destruct (Get (CanaryNamespace d) (TargetRefName d) w) as [[g|err] w0|] eqn:Hget.
  - rewrite (GlooReplace_Reconcile_eq d w g w0 Hget) in Hrec.
    apply Get_inl in Hget as (s & Hs & -> & Hf & ->).
    destruct (GlooReplace.DiffIgnoringWeight _ _) eqn:Hdiff.
    + destruct (Update_result _ _ _) as [o|err] eqn:Hupd; [|done].
      injection Hrec as <-.
      pose proof (Update_result_inl _ _ _ _ Hupd) as Hst.
      exists {| version := ResourceVersion o; spec := canonical_spec d |}.
      split; [|apply DiffIgnoringWeight_refl].
      change (store (logged ?e ?w0)) with (store w0).
      cbn [object_of ObjName ObjNamespace ResourceVersion Spec] in Hst |- *.
      rewrite Hst. apply lookup_insert_eq.
    + injection Hrec as <-. by exists s.
  - destruct (Reconcile_read_failed d w err w0 Hget) as (_ & _ & H). congruence.
  - by rewrite Get_eq in Hget.
Qed.

(** With a spec of the canonical shape on the server, [Reconcile] of
    [GlooReplace] issues no [Update], whatever the stored weights. *)
Lemma GlooReplace_Reconcile_settled d w s e w2 :
  store w !! (CanaryNamespace d, TargetRefName d) = Some s →
  GlooReplace.DiffIgnoringWeight (canonical_spec d) (spec s) = false →
  GlooReplace.Reconcile d w = Returned e w2 →
  updates (journal w2) = updates (journal w) ∧ store w2 = store w.
Proof.
  intros Hs Hshape Hrec.
  destruct (Get (CanaryNamespace d) (TargetRefName d) w) as [[g|err] w0|] eqn:Hget.
  - rewrite (GlooReplace_Reconcile_eq d w g w0 Hget) in Hrec.
    apply Get_inl in Hget as (s' & Hs' & -> & Hf & ->).
    assert (s' = s) as -> by congruence. simpl in Hrec. rewrite Hshape in Hrec.
    injection Hrec as _ <-. by rewrite updates_after_Get.
  - destruct (Reconcile_read_failed d w err w0 Hget) as (_ & _ & H).
    rewrite H in Hrec. injection Hrec as _ <-.
    apply Get_inr in Hget as ->. by rewrite updates_after_Get.
  - by rewrite Get_eq in Hget.
Qed.

(** X23.  Idempotence in [GlooReplace]: after a [Reconcile] that returned nil,
    the next one finds no difference of shape and issues no [Update]; the
    two calls together issue at most one. *)
Lemma GlooReplace_Reconcile_twice d w w1 e w2 :
  GlooReplace.Reconcile d w = Returned None w1 →
  GlooReplace.Reconcile d w1 = Returned e w2 →
  updates (journal w2) = updates (journal w1)
  ∧ store w2 = store w1
  ∧ (updates (journal w2) ≤ S (updates (journal w)))%nat.
Proof.
  intros H1 H2.
  destruct (GlooReplace_Reconcile_establishes d w w1 H1) as (s & Hs & Hshape).
  destruct (GlooReplace_Reconcile_settled d w1 s e w2 Hs Hshape H2) as [Hu Hst].
  repeat split; try done. rewrite Hu.
  destruct (Get (CanaryNamespace d) (TargetRefName d) w) as [[g|err] w0|] eqn:Hget.
  - rewrite (GlooReplace_Reconcile_eq d w g w0 Hget) in H1.
    apply Get_inl in Hget as (s' & _ & -> & _ & ->).
    destruct (GlooReplace.DiffIgnoringWeight _ _).
    + destruct (Update_result _ _ _); [|done]. injection H1 as <-.
      rewrite updates_logged_info, updates_Update_world, updates_after_Get. lia.
    + injection H1 as <-. rewrite updates_after_Get. lia.
  - destruct (Reconcile_read_failed d w err w0 Hget) as (_ & _ & H). congruence.
  - by rewrite Get_eq in Hget.
Qed.

(** *** [Part000]: rebuild the list, then always write *)

(** The rebuilding loop appends after whatever the slice already holds.
    Its index [i] runs over the slots [make] filled with zero values, and
    zeroing the weight of a zero value changes nothing. *)
Lemma rebuild_from_eq canaryName ds : ∀ i nd w,
  0 ≤ i →
  (∀ k, (Z.to_nat i ≤ k < Z.to_nat i + length ds)%nat → nd !! k = Some zeroWD) →
  Part000.rebuild_from i canaryName ds nd w = Returned (nd ++ ds) w.
Proof.
  induction ds as [|dst rest IH]; intros i nd w Hi Hzero; simpl.
  - by rewrite app_nil_r.
  - assert (nd !! Z.to_nat i = Some zeroWD) as Hslot by (apply Hzero; simpl; lia).
    assert (Z.to_nat i < length nd)%nat as Hlt by (by eapply lookup_lt_Some).
    rewrite bind_eq.
    assert ((if decide (upstreamName dst = canaryName)
             then cur ← index (nd ++ [dst]) i;
                  assign (nd ++ [dst]) i (withWeight cur (uint32_of_int 0))
             else mret (nd ++ [dst])) w = Returned (nd ++ [dst]) w) as ->.
    { case_decide; [|done].
      rewrite bind_eq, (index_ok _ i zeroWD) by (done || by rewrite lookup_app_l).
      rewrite assign_ok by (unfold len; rewrite length_app; simpl; lia).
      f_equal. apply list_insert_id. by rewrite lookup_app_l. }
    rewrite IH.
    + by rewrite <- app_assoc.
    + lia.
    + intros k Hk. rewrite lookup_app_l.
      * apply Hzero. simpl. lia.
      * apply (lookup_lt_Some _ _ zeroWD). apply Hzero. simpl. lia.
Qed.

(** What [Reconcile] of [Part000] sends to the server: with no canary
    entry, the list with the canary appended; with one, [len+1] zero
    values followed by the list. *)
Lemma Part000_Reconcile_eq d w g w1 :
  Get (CanaryNamespace d) (TargetRefName d) w = Returned (inl g) w1 →
  let ns := CanaryNamespace d in
  let canaryName := Sprintf_canary (TargetRefName d) (ServicePort d) in
  let ds := Destinations (Spec g) in
  let newDestinations :=
    match range_find canaryName ds with
    | None => ds ++ [mkWD canaryName ns 0]
    | Some _ => replicate (S (length ds)) zeroWD ++ ds
    end in
  let clone := withDestinations g newDestinations in
  Part000.Reconcile d w
  = match Update_result ns clone w1 with
    | inr err => Returned (Some (ErrUpdate (TargetRefName d) ns err)) (Update_world ns clone w1)
    | inl _ => Returned None (logged (EvInfo true (ObjName g) ns) (Update_world ns clone w1))
    end.
Proof.
  intros Hget ns canaryName ds newDestinations clone. enter_op.
  rewrite bind_eq, Hget. fold ns canaryName ds. rewrite bind_eq.
  subst clone newDestinations.
  destruct (range_find canaryName ds) as [[i dst]|].
  - rewrite rebuild_from_eq.
    + replace (Z.to_nat (len ds + 1)) with (S (length ds)) by (unfold len; lia).
      rewrite bind_eq, Update_eq. by destruct (Update_result _ _ _).
    + done.
    + intros k Hk. apply lookup_replicate_2. unfold len. lia.
  - rewrite ret_eq, bind_eq, Update_eq. by destruct (Update_result _ _ _).
Qed.

(** Every [Reconcile] of [Part000] whose read goes through issues an
    [Update]. *)
Lemma Part000_Reconcile_always_updates d w g w1 :
  Get (CanaryNamespace d) (TargetRefName d) w = Returned (inl g) w1 →
  ∃ e w2, Part000.Reconcile d w = Returned e w2
          ∧ updates (journal w2) = S (updates (journal w)).
Proof.
  intros Hget. rewrite (Part000_Reconcile_eq d w g w1 Hget).
  apply Get_inl in Hget as (s & _ & -> & _ & ->).
  destruct (Update_result _ _ _); do 2 eexists; (split; [done|]).
  - by rewrite updates_logged_info, updates_Update_world, updates_after_Get.
  - by rewrite updates_Update_world, updates_after_Get.
Qed.

(** C2.  In [Part000], on a group holding only the primary at 1000 and
    with every remote call going through, two [Reconcile] calls in a row
    both return nil and issue two [Update]s where the specification allows one:
    the first appends the canary entry, the second writes three zero
    values in front of the two entries.  On the same group the two calls
    of [GlooReplace] and of [GlooUpsert] issue one [Update]. *)
Theorem Part000_Reconcile_twice_writes_twice :
  let w := world_of [primary_at 1000] in
  (w1 ← world_after (Part000.Reconcile demo w);
   Some (result_of (Part000.Reconcile demo w), stored_destinations w1, updates (journal w1)))
  = Some (Some None, Some [primary_at 1000; canary_at 0], 1%nat)
  ∧ (w1 ← world_after (Part000.Reconcile demo w);
     w2 ← world_after (Part000.Reconcile demo w1);
     Some (result_of (Part000.Reconcile demo w1), stored_destinations w2, updates (journal w2)))
    = Some (Some None,
            Some [zeroWD; zeroWD; zeroWD; primary_at 1000; canary_at 0], 2%nat)
  ∧ (w1 ← world_after (GlooReplace.Reconcile demo w);
     w2 ← world_after (GlooReplace.Reconcile demo w1);
     Some (updates (journal w2))) = Some 1%nat
  ∧ (w1 ← world_after (GlooUpsert.Reconcile demo w);
     w2 ← world_after (GlooUpsert.Reconcile demo w1);
     Some (updates (journal w2))) = Some 1%nat.
Proof. vm_compute. done. Qed.

(** C5.  In [Part000], on a group that already holds the canary entry
    (primary at 1000, canary at 300), [Reconcile] returns nil and writes
    a list of five entries: three zero values, then the two entries.  The
    specification asks for the list unchanged.  [GlooUpsert] issues no write on
    the same group and leaves the two entries as they were. *)
Theorem Part000_Reconcile_pads_existing_canary :
  let w := world_of [primary_at 1000; canary_at 300] in
  result_of (Part000.Reconcile demo w) = Some None
  ∧ (world_after (Part000.Reconcile demo w) ≫= stored_destinations)
    = Some [zeroWD; zeroWD; zeroWD; primary_at 1000; canary_at 300]
  ∧ (w1 ← world_after (GlooUpsert.Reconcile demo w);
     Some (stored_destinations w1, updates (journal w1)))
    = Some (Some [primary_at 1000; canary_at 300], 0%nat).
Proof. vm_compute. done. Qed.

(** ** Finalize *)

(** *** [GlooUpsert]: remove the canary entry when it is there *)

(** No canary entry: the list goes back as it was read, whether the write
    goes through or not, and the error is nil when it does. *)
Lemma GlooUpsert_Finalize_no_canary d w g w1 :
  Get (CanaryNamespace d) (TargetRefName d) w = Returned (inl g) w1 →
  Forall (λ x, upstreamName x ≠ Sprintf_canary (TargetRefName d) (ServicePort d))
         (Destinations (Spec g)) →
  ∃ e w2, GlooUpsert.Finalize d w = Returned e w2
    ∧ (∀ ns name, stored_at ns name w2 = stored_at ns name w)
    ∧ (next_is_faulty w1 = false → e = None).
Proof.
  intros Hget Hall%range_find_None. enter_op. rewrite bind_eq, Hget, Hall.
  rewrite bind_eq, ret_eq, bind_eq, Update_eq.
  apply Get_inl in Hget as (s & Hs & -> & Hf & ->).
  set (ns := CanaryNamespace d) in *. set (apex := TargetRefName d) in *.
  destruct (Update_result _ _ _) as [o|err] eqn:Hupd;
    (do 2 eexists; split; [done|]); split.
  - intros ns' name. unfold stored_at.
    rewrite (Update_result_inl _ _ _ _ Hupd). simpl.
    destruct (decide ((ns, apex) = (ns', name))) as [<-|Hne].
    + by rewrite lookup_insert_eq, Hs.
    + by rewrite lookup_insert_ne.
  - done.
  - intros ns' name. unfold stored_at. by rewrite (Update_result_inr _ _ _ _ Hupd).
  - intros Hok.
    destruct (Update_after_Get_ok ns apex s (after_call (EvGet ns apex) w)
                (Destinations (spec s)) Hs Hok) as [o Ho].
    simpl in Hupd, Ho. congruence.
Qed.

(** A canary entry present: the first one goes, and every other entry
    survives exactly once. *)
Lemma GlooUpsert_Finalize_removes_canary d w g w1 :
  Get (CanaryNamespace d) (TargetRefName d) w = Returned (inl g) w1 →
  ∀ i dst,
  range_find (Sprintf_canary (TargetRefName d) (ServicePort d)) (Destinations (Spec g))
  = Some (i, dst) →
  ∃ e w2 ds', GlooUpsert.Finalize d w = Returned e w2
    ∧ Destinations (Spec g) ≡ₚ dst :: ds'
    ∧ (e = None → stored_at (CanaryNamespace d) (TargetRefName d) w2 = Some ds').
Proof.
  intros Hget i dst Hfind. enter_op. rewrite bind_eq, Hget, Hfind.
  apply range_find_Some in Hfind as (Hi & Hlook & _).
  rewrite bind_eq.
  destruct (remove_ok (Destinations (Spec g)) i dst w1 ltac:(lia) Hlook)
    as (ds' & -> & Hperm & _).
  rewrite bind_eq, Update_eq.
  apply Get_inl in Hget as (s & Hs & -> & Hf & ->).
  destruct (Update_result _ _ _) as [o|err] eqn:Hupd;
    (do 2 eexists; exists ds'; split; [done|]); (split; [done|]); [|done].
  intros _. unfold stored_at. rewrite (Update_result_inl _ _ _ _ Hupd). simpl.
  by rewrite lookup_insert_eq.
Qed.

(** *** [Part000]: remove at the index found, or at zero *)

Lemma Part000_Finalize_empty_panics d w g w1 :
  Get (CanaryNamespace d) (TargetRefName d) w = Returned (inl g) w1 →
  Destinations (Spec g) = [] →
  Part000.Finalize d w = Panicked.
Proof.
  intros Hget Hnil. enter_op. rewrite bind_eq, Hget, Hnil. reflexivity.
Qed.

(** With no canary entry in a non-empty list, [Finalize] of [Part000]
    removes the entry at index zero. *)
Lemma Part000_Finalize_no_canary_drops_first d w g w1 x rest :
  Get (CanaryNamespace d) (TargetRefName d) w = Returned (inl g) w1 →
  Destinations (Spec g) = x :: rest →
  Forall (λ y, upstreamName y ≠ Sprintf_canary (TargetRefName d) (ServicePort d))
         (x :: rest) →
  ∃ e w2 ds', Part000.Finalize d w = Returned e w2
    ∧ rest ≡ₚ ds'
    ∧ (e = None → stored_at (CanaryNamespace d) (TargetRefName d) w2 = Some ds').
Proof.
  intros Hget Hds Hall%range_find_None. enter_op. rewrite bind_eq, Hget, Hds, Hall.
  rewrite bind_eq.
  destruct (remove_ok (x :: rest) 0 x w1 ltac:(lia) eq_refl) as (ds' & -> & Hperm & _).
  apply Permutation_cons_inv in Hperm.
  rewrite bind_eq, Update_eq.
  apply Get_inl in Hget as (s & Hs & -> & Hf & ->).
  destruct (Update_result _ _ _) as [o|err] eqn:Hupd;
    (do 2 eexists; exists ds'; split; [done|]); (split; [done|]); [|done].
  intros _. unfold stored_at. rewrite (Update_result_inl _ _ _ _ Hupd). simpl.
  by rewrite lookup_insert_eq.
Qed.

(** C3.  In [Part000], on groups with no canary entry, [Finalize]
    returns nil and removes the entry at index zero: a group holding only
    the primary is left empty, and of primary at 700 and "other" at 300
    only "other" remains.  The specification asks for every entry to
    survive.
    [GlooUpsert] returns nil on both groups and leaves them as they were. *)
Theorem Part000_Finalize_without_canary_removes_first :
  let w := world_of [primary_at 1000] in
  let v := world_of [primary_at 700; mkWD "other" "test" 300] in
  (w1 ← world_after (Part000.Finalize demo w);
   Some (result_of (Part000.Finalize demo w), stored_destinations w1))
  = Some (Some None, Some [])
  ∧ (v1 ← world_after (Part000.Finalize demo v);
     Some (result_of (Part000.Finalize demo v), stored_destinations v1))
    = Some (Some None, Some [mkWD "other" "test" 300])
  ∧ (w1 ← world_after (GlooUpsert.Finalize demo w);
     Some (result_of (GlooUpsert.Finalize demo w), stored_destinations w1))
    = Some (Some None, Some [primary_at 1000])
  ∧ (v1 ← world_after (GlooUpsert.Finalize demo v);
     Some (result_of (GlooUpsert.Finalize demo v), stored_destinations v1))
    = Some (Some None, Some [primary_at 700; mkWD "other" "test" 300]).
Proof. vm_compute. done. Qed.

(** C4.  In [Part000], [Finalize] on a group whose destination list is
    empty panics inside [remove] (index out of range) instead of
    returning: the specification asks for a return in every case. *)
Theorem Part000_Finalize_panics_on_empty_group :
  Part000.Finalize demo (world_of []) = Panicked.
Proof. vm_compute. done. Qed.

(** ** No panics *)

Lemma returns_Returned {A} (a : A) w : returns (Returned a w).
Proof. by exists a, w. Qed.

Lemma Get_cases ns name w :
  (∃ g, Get ns name w = Returned (inl g) (after_call (EvGet ns name) w))
  ∨ (∃ err, Get ns name w = Returned (inr err) (after_call (EvGet ns name) w)).
Proof.
  rewrite Get_eq. destruct (Get_result ns name w) as [g|err]; [left|right]; by eexists.
Qed.

Lemma SetRoutes_read_failed d p c m w err w1 :
  ¬ (p = 0 ∧ c = 0) →
  Get (CanaryNamespace d) (TargetRefName d) w = Returned (inr err) w1 →
  let e := Some (ErrQuery (TargetRefName d) (CanaryNamespace d) err) in
  Part000.SetRoutes d p c m w = Returned e w1
  ∧ GlooUpsert.SetRoutes d p c m w = Returned e w1
  ∧ GlooReplace.SetRoutes d p c m w = Returned e w1.
Proof.
  intros Hnz Hget e.
  repeat split; enter_op; rewrite decide_False by done; by rewrite bind_eq, Hget.
Qed.

Lemma Finalize_read_failed d w err w1 :
  Get (CanaryNamespace d) (TargetRefName d) w = Returned (inr err) w1 →
  let e := Some (ErrQuery (TargetRefName d) (CanaryNamespace d) err) in
  Part000.Finalize d w = Returned e w1
  ∧ GlooUpsert.Finalize d w = Returned e w1.
Proof.
  intros Hget e. repeat split; enter_op; by rewrite bind_eq, Hget.
Qed.

(** Every [GetRoutes] returns. *)
Lemma GetRoutes_returns d w :
  returns (Part000.GetRoutes d w)
  ∧ returns (GlooUpsert.GetRoutes d w)
  ∧ returns (GlooReplace.GetRoutes d w).
Proof.
  destruct (Get_cases (CanaryNamespace d) (TargetRefName d) w) as [[g Hget]|[err Hget]].
  - destruct (decide (len (Destinations (Spec g)) < 2)) as [Hshort|Hlong].
    + rewrite (Part000_GetRoutes_short d w g _ Hget Hshort),
        (GlooUpsert_GetRoutes_short d w g _ Hget Hshort),
        (GlooReplace_GetRoutes_short d w g _ Hget Hshort).
      repeat split; apply returns_Returned.
    + rewrite (Part000_GetRoutes_long d w g _ Hget) by lia.
      rewrite (GlooUpsert_GetRoutes_long d w g _ Hget) by lia.
      rewrite (GlooReplace_GetRoutes_long d w g _ Hget) by lia.
      repeat split; destruct (range_find _ _) as [[? ?]|]; apply returns_Returned.
  - destruct (GetRoutes_read_failed d w err _ Hget) as (-> & -> & ->).
    repeat split; apply returns_Returned.
Qed.

(** Every [SetRoutes] returns. *)
Lemma SetRoutes_returns d p c m w :
  returns (Part000.SetRoutes d p c m w)
  ∧ returns (GlooUpsert.SetRoutes d p c m w)
  ∧ returns (GlooReplace.SetRoutes d p c m w).
Proof.
  destruct (decide (p = 0 ∧ c = 0)) as [[-> ->]|Hnz].
  { destruct (zero_zero_rejected_everywhere d m w) as (-> & -> & ->).
    repeat split; apply returns_Returned. }
  destruct (Get_cases (CanaryNamespace d) (TargetRefName d) w) as [[g Hget]|[err Hget]].
  - rewrite (Part000_SetRoutes_eq d p c m w g _ Hnz Hget),
      (GlooUpsert_SetRoutes_eq d p c m w g _ Hnz Hget),
      (GlooReplace_SetRoutes_eq d p c m w g _ Hnz Hget).
    repeat split; apply returns_Returned.
  - destruct (SetRoutes_read_failed d p c m w err _ Hnz Hget) as (-> & -> & ->).
    repeat split; apply returns_Returned.
Qed.

(** Every [Reconcile] returns. *)
Lemma Reconcile_returns d w :
  returns (Part000.Reconcile d w)
  ∧ returns (GlooUpsert.Reconcile d w)
  ∧ returns (GlooReplace.Reconcile d w).
Proof.
  destruct (Get_cases (CanaryNamespace d) (TargetRefName d) w) as [[g Hget]|[err Hget]].
  - rewrite (Part000_Reconcile_eq d w g _ Hget),
      (GlooUpsert_Reconcile_eq d w g _ Hget),
      (GlooReplace_Reconcile_eq d w g _ Hget).
    repeat split.
    + destruct (Update_result _ _ _); apply returns_Returned.
    + destruct (range_find _ _); [apply returns_Returned|].
      simpl. destruct (Update_result _ _ _); apply returns_Returned.
    + destruct (GlooReplace.DiffIgnoringWeight _ _); [|apply returns_Returned].
      destruct (Update_result _ _ _); apply returns_Returned.
  - destruct (Reconcile_read_failed d w err _ Hget) as (-> & -> & ->).
    repeat split; apply returns_Returned.
Qed.

(** [Finalize] of [GlooUpsert] and of [GlooReplace] returns: [remove] is
    only reached with the index of an element. *)
Lemma Finalize_returns d w :
  returns (GlooUpsert.Finalize d w) ∧ returns (GlooReplace.Finalize d w).
Proof.
  split; [|apply returns_Returned].
  destruct (Get_cases (CanaryNamespace d) (TargetRefName d) w) as [[g Hget]|[err Hget]].
  - destruct (range_find (Sprintf_canary (TargetRefName d) (ServicePort d))
                (Destinations (Spec g))) as [[i dst]|] eqn:Hfind.
    + destruct (GlooUpsert_Finalize_removes_canary d w g _ Hget i dst Hfind)
        as (e & w2 & ds' & -> & _).
      apply returns_Returned.
    + apply range_find_None in Hfind.
      destruct (GlooUpsert_Finalize_no_canary d w g _ Hget Hfind) as (e & w2 & -> & _).
      apply returns_Returned.
  - destruct (Finalize_read_failed d w err _ Hget) as (_ & ->).
    apply returns_Returned.
Qed.

(** [Finalize] of [Part000] returns unless it has read an empty list. *)
Lemma Part000_Finalize_returns_iff d w :
  returns (Part000.Finalize d w) ↔
  ¬ ∃ g w1, Get (CanaryNamespace d) (TargetRefName d) w = Returned (inl g) w1
            ∧ Destinations (Spec g) = [].
Proof.
  destruct (Get_cases (CanaryNamespace d) (TargetRefName d) w) as [[g Hget]|[err Hget]].
  - destruct (Destinations (Spec g)) as [|x rest] eqn:Hds.
    + rewrite (Part000_Finalize_empty_panics d w g _ Hget Hds). split.
      * by intros (? & ? & ?).
      * intros Hno. destruct Hno. by exists g, (after_call (EvGet (CanaryNamespace d) (TargetRefName d)) w).
    + split.
      * intros _ (g' & w1 & Hget' & Hnil). congruence.
      * intros _. enter_op. rewrite bind_eq, Hget, Hds, bind_eq.
        set (idx := match range_find _ _ with Some (i, _) => i | None => 0 end).
        assert (∃ y, 0 ≤ idx ∧ (x :: rest) !! Z.to_nat idx = Some y) as (y & Hidx & Hy).
        { subst idx. destruct (range_find _ _) as [[i dst]|] eqn:Hfind.
          - apply range_find_Some in Hfind as (Hi & Hlook & _). exists dst. split; [lia|done].
          - by exists x. }
        destruct (remove_ok (x :: rest) idx y (after_call (EvGet (CanaryNamespace d) (TargetRefName d)) w) Hidx Hy)
          as (ds' & -> & _).
        rewrite bind_eq, Update_eq.
        destruct (Update_result _ _ _); apply returns_Returned.
  - destruct (Finalize_read_failed d w err _ Hget) as (-> & _). split.
    + intros _ (g' & w1 & Hget' & _). congruence.
    + intros _. apply returns_Returned.
Qed.

(** ** Percents outside 0..100 *)

(** The both-zero check is the only rejection: whatever else [SetRoutes]
    answers, it is the no-valid-weights error exactly on the pair (0, 0). *)
Lemma SetRoutes_rejects_only_zero_zero d p c m w :
  match GlooUpsert.SetRoutes d p c m w with
  | Returned e _ => fails_with isInvalidWeights e ↔ p = 0 ∧ c = 0
  | Panicked => False
  end
  ∧ match GlooReplace.SetRoutes d p c m w with
    | Returned e _ => fails_with isInvalidWeights e ↔ p = 0 ∧ c = 0
    | Panicked => False
    end.
Proof.
  destruct (decide (p = 0 ∧ c = 0)) as [[-> ->]|Hnz].
  { destruct (zero_zero_rejected_everywhere d m w) as (_ & -> & ->).
    split; by rewrite fails_with_Some. }
  destruct (Get_cases (CanaryNamespace d) (TargetRefName d) w) as [[g Hget]|[err Hget]].
  - rewrite (GlooUpsert_SetRoutes_eq d p c m w g _ Hnz Hget),
      (GlooReplace_SetRoutes_eq d p c m w g _ Hnz Hget).
    split; destruct (Update_result _ _ _); split; try done;
      first [ by intros ?%fails_with_None | by intros ?%fails_with_Some ].
  - destruct (SetRoutes_read_failed d p c m w err _ Hnz Hget) as (_ & -> & ->).
    split; split; try done; by intros ?%fails_with_Some.
Qed.

(** C10.  [SetRoutes] takes percents outside 0..100.  With
    [canaryWeight = -1], [GlooUpsert] and [GlooReplace] return nil and
    store the canary weight 4294967286 = 2^32 - 10; with
    [primaryWeight = 500], [GlooReplace] stores the primary weight 5000.
    In general the stored weight is [percent * 10] modulo 2^32, and the
    no-valid-weights error is returned on the pair (0, 0) only. *)
Theorem SetRoutes_accepts_percent_out_of_range :
  let w := world_of [primary_at 1000; canary_at 0] in
  (w1 ← world_after (GlooUpsert.SetRoutes demo 101 (-1) false w);
   Some (result_of (GlooUpsert.SetRoutes demo 101 (-1) false w), stored_destinations w1))
  = Some (Some None, Some [primary_at 1000; canary_at 4294967286])
  ∧ (w1 ← world_after (GlooReplace.SetRoutes demo 101 (-1) false w);
     Some (result_of (GlooReplace.SetRoutes demo 101 (-1) false w), stored_destinations w1))
    = Some (Some None, Some [primary_at 1010; canary_at 4294967286])
  ∧ (w1 ← world_after (GlooReplace.SetRoutes demo 500 0 false w);
     Some (result_of (GlooReplace.SetRoutes demo 500 0 false w), stored_destinations w1))
    = Some (Some None, Some [primary_at 5000; canary_at 0])
  ∧ 4294967286 = 2 ^ 32 - 10
  ∧ (∀ percent, uint32_of_int (int_mul percent 10) = (percent * 10) mod 2 ^ 32)
  ∧ (∀ d p c m v,
       match GlooUpsert.SetRoutes d p c m v with
       | Returned e _ => fails_with isInvalidWeights e ↔ p = 0 ∧ c = 0
       | Panicked => False
       end
       ∧ match GlooReplace.SetRoutes d p c m v with
         | Returned e _ => fails_with isInvalidWeights e ↔ p = 0 ∧ c = 0
         | Panicked => False
         end).
Proof.
  intros w. split; [by vm_compute|]. split; [by vm_compute|]. split; [by vm_compute|].
  split; [done|]. split; [apply uint32_of_int_mul|].
  apply SetRoutes_rejects_only_zero_zero.
Qed.

(** * Further properties of the operations *)

(** ** What a call does to the server *)

(** A write sent with the name and the version just read either goes
    through or fails in transport: no conflict, no missing object. *)
Lemma Update_at_read_version ns name s w obj :
  store w !! (ns, name) = Some s →
  ObjName obj = name →
  ResourceVersion obj = version s →
  match Update_result ns obj w with
  | inl _ =>
      store (Update_world ns obj w)
      = <[(ns, name) := {| version := N.succ (version s); spec := Spec obj |}]> (store w)
  | inr err => err = StatusUnavailable ∧ store (Update_world ns obj w) = store w
  end.
Proof.
  intros Hs Hname Hver.
  destruct (Update_result ns obj w) as [o|err] eqn:Hupd.
  - rewrite (Update_result_inl _ _ _ _ Hupd).
    unfold Update_result in Hupd. rewrite Hname in Hupd |- *.
    destruct (next_is_faulty w); [done|]. rewrite Hs in Hupd.
    destruct (decide _); [|done]. by injection Hupd as <-.
  - split; [|by apply (Update_result_inr _ _ _ err)].
    unfold Update_result in Hupd. rewrite Hname in Hupd.
    destruct (next_is_faulty w); [congruence|]. rewrite Hs in Hupd.
    by rewrite decide_True in Hupd by done.
Qed.

Lemma effect_on_unchanged key w e w' :
  store w' = store w →
  (∀ a n cause, e ≠ Some (ErrUpdate a n cause)) →
  effect_on key w e w'.
Proof.
  intros Hst Hne. split; [by left|]. intros a n cause He. by destruct (Hne a n cause).
Qed.

(** The tail shared by the writing operations: a read that went through,
    then one [Update] of an object with the name and version read. *)
Lemma effect_after_update d s w obj :
  store w !! group_key d = Some s →
  ObjName obj = TargetRefName d →
  ResourceVersion obj = version s →
  let w1 := after_call (EvGet (CanaryNamespace d) (TargetRefName d)) w in
  ∀ w', store w' = store (Update_world (CanaryNamespace d) obj w1) →
  match Update_result (CanaryNamespace d) obj w1 with
  | inl _ => effect_on (group_key d) w None w'
  | inr err =>
      effect_on (group_key d) w
        (Some (ErrUpdate (TargetRefName d) (CanaryNamespace d) err)) w'
  end.
Proof.
  intros Hs Hname Hver w1 w' Hw'.
  pose proof (Update_at_read_version (CanaryNamespace d) (TargetRefName d) s w1 obj
                Hs Hname Hver) as Hupd.
  destruct (Update_result _ _ _) as [o|err].
  - split; [|done]. right. split; [done|].
    eexists s, _. split; [done|]. split; [|by rewrite Hw', Hupd]. done.
  - destruct Hupd as [-> Hst]. split.
    + left. by rewrite Hw', Hst.
    + by intros a n cause [= _ _ <-].
Qed.

(** The list [Finalize] of [GlooUpsert] sends back: the one read, less
    the first canary entry when there is one. *)
Lemma GlooUpsert_Finalize_eq d w g w1 :
  Get (CanaryNamespace d) (TargetRefName d) w = Returned (inl g) w1 →
  let ns := CanaryNamespace d in
  let ds := Destinations (Spec g) in
  ∃ ds',
    match range_find (Sprintf_canary (TargetRefName d) (ServicePort d)) ds with
    | Some (_, dst) => ds ≡ₚ dst :: ds'
    | None => ds' = ds
    end
    ∧ GlooUpsert.Finalize d w
      = Returned (match Update_result ns (withDestinations g ds') w1 with
                  | inr err => Some (ErrUpdate (TargetRefName d) ns err)
                  | inl _ => None
                  end)
                 (Update_world ns (withDestinations g ds') w1).
Proof.
  intros Hget ns ds. enter_op. rewrite bind_eq, Hget. fold ns ds.
  destruct (range_find _ ds) as [[i dst]|] eqn:Hfind.
  - apply range_find_Some in Hfind as (Hi & Hlook & _).
    destruct (remove_ok ds i dst w1 ltac:(lia) Hlook) as (ds' & Hrm & Hperm & _).
    exists ds'. split; [done|].
    rewrite bind_eq, Hrm, bind_eq, Update_eq. by destruct (Update_result _ _ _).
  - exists ds. split; [done|].
    rewrite bind_eq, ret_eq, bind_eq, Update_eq. by destruct (Update_result _ _ _).
Qed.

(** The list [Finalize] of [Part000] sends back when the one read is not
    empty: the one read, less the first canary entry, or less its first
    entry when it has no canary. *)
Lemma Part000_Finalize_eq d w g w1 x rest :
  Get (CanaryNamespace d) (TargetRefName d) w = Returned (inl g) w1 →
  Destinations (Spec g) = x :: rest →
  let ns := CanaryNamespace d in
  ∃ ds',
    match range_find (Sprintf_canary (TargetRefName d) (ServicePort d)) (x :: rest) with
    | Some (_, dst) => x :: rest ≡ₚ dst :: ds'
    | None => rest ≡ₚ ds'
    end
    ∧ Part000.Finalize d w
      = Returned (match Update_result ns (withDestinations g ds') w1 with
                  | inr err => Some (ErrUpdate (TargetRefName d) ns err)
                  | inl _ => None
                  end)
                 (Update_world ns (withDestinations g ds') w1).
Proof.
  intros Hget Hds ns. enter_op. rewrite bind_eq, Hget, Hds. fold ns.
  destruct (range_find _ (x :: rest)) as [[i dst]|] eqn:Hfind.
  - apply range_find_Some in Hfind as (Hi & Hlook & _).
    destruct (remove_ok (x :: rest) i dst w1 ltac:(lia) Hlook) as (ds' & Hrm & Hperm & _).
    exists ds'. split; [done|].
    rewrite bind_eq, Hrm, bind_eq, Update_eq. by destruct (Update_result _ _ _).
  - destruct (remove_ok (x :: rest) 0 x w1 ltac:(lia) eq_refl) as (ds' & Hrm & Hperm & _).
    exists ds'. split; [by apply Permutation_cons_inv in Hperm|].
    rewrite bind_eq, Hrm, bind_eq, Update_eq. by destruct (Update_result _ _ _).
Qed.

(** Close an effect goal from the closed form [H] of an operation whose
    read found [s]. *)
Ltac finish_effect Hs H :=
  match type of H with
  | context [Update_result ?ns ?obj ?w1] =>
      let E := fresh "E" in
      pose proof (effect_after_update _ _ _ obj Hs eq_refl eq_refl) as E;
      cbv zeta in E;
      destruct (Update_result ns obj w1);
      injection H as <- <-; apply E; reflexivity
  end.

Lemma SetRoutes_effect d p c m w e w' :
  (Part000.SetRoutes d p c m w = Returned e w' → effect_on (group_key d) w e w')
  ∧ (GlooUpsert.SetRoutes d p c m w = Returned e w' → effect_on (group_key d) w e w')
  ∧ (GlooReplace.SetRoutes d p c m w = Returned e w' → effect_on (group_key d) w e w').
Proof.
  destruct (decide (p = 0 ∧ c = 0)) as [[-> ->]|Hnz].
  { destruct (zero_zero_rejected_everywhere d m w) as (-> & -> & ->).
    (split; [|split]); intros [= <- <-]; by apply effect_on_unchanged. }
  destruct (Get_cases (CanaryNamespace d) (TargetRefName d) w) as [[g Hget]|[err Hget]].
  - rewrite (Part000_SetRoutes_eq d p c m w g _ Hnz Hget),
      (GlooUpsert_SetRoutes_eq d p c m w g _ Hnz Hget),
      (GlooReplace_SetRoutes_eq d p c m w g _ Hnz Hget).
    apply Get_inl in Hget as (s & Hs & -> & _ & _).
    (split; [|split]); intros H; finish_effect Hs H.
  - destruct (SetRoutes_read_failed d p c m w err _ Hnz Hget) as (-> & -> & ->).
    (split; [|split]); intros [= <- <-]; by apply effect_on_unchanged.
Qed.

Lemma Reconcile_effect d w e w' :
  (Part000.Reconcile d w = Returned e w' → effect_on (group_key d) w e w')
  ∧ (GlooUpsert.Reconcile d w = Returned e w' → effect_on (group_key d) w e w')
  ∧ (GlooReplace.Reconcile d w = Returned e w' → effect_on (group_key d) w e w').
Proof.
  destruct (Get_cases (CanaryNamespace d) (TargetRefName d) w) as [[g Hget]|[err Hget]].
  - rewrite (Part000_Reconcile_eq d w g _ Hget),
      (GlooUpsert_Reconcile_eq d w g _ Hget),
      (GlooReplace_Reconcile_eq d w g _ Hget).
    apply Get_inl in Hget as (s & Hs & -> & _ & _).
    (split; [|split]); intros H.
    + finish_effect Hs H.
    + destruct (range_find _ _).
      * injection H as <- <-. by apply effect_on_unchanged.
      * cbv zeta in H. finish_effect Hs H.
    + destruct (GlooReplace.DiffIgnoringWeight _ _).
      * finish_effect Hs H.
      * injection H as <- <-. by apply effect_on_unchanged.
  - destruct (Reconcile_read_failed d w err _ Hget) as (-> & -> & ->).
    (split; [|split]); intros [= <- <-]; apply effect_on_unchanged; try done;
      by destruct (IsNotFound err).
Qed.

Lemma Finalize_effect d w e w' :
  (Part000.Finalize d w = Returned e w' → effect_on (group_key d) w e w')
  ∧ (GlooUpsert.Finalize d w = Returned e w' → effect_on (group_key d) w e w')
  ∧ (GlooReplace.Finalize d w = Returned e w' → effect_on (group_key d) w e w').
Proof.
  split; [|split]; [| |intros [= <- <-]; by apply effect_on_unchanged].
  - destruct (Get_cases (CanaryNamespace d) (TargetRefName d) w) as [[g Hget]|[err Hget]].
    + destruct (Destinations (Spec g)) as [|x rest] eqn:Hds.
      { by rewrite (Part000_Finalize_empty_panics d w g _ Hget Hds). }
      destruct (Part000_Finalize_eq d w g _ x rest Hget Hds) as (ds' & _ & ->).
      apply Get_inl in Hget as (s & Hs & -> & _ & _).
      intros H. finish_effect Hs H.
    + destruct (Finalize_read_failed d w err _ Hget) as (-> & _).
      intros [= <- <-]. by apply effect_on_unchanged.
  - destruct (Get_cases (CanaryNamespace d) (TargetRefName d) w) as [[g Hget]|[err Hget]].
    + destruct (GlooUpsert_Finalize_eq d w g _ Hget) as (ds' & _ & ->).
      apply Get_inl in Hget as (s & Hs & -> & _ & _).
      intros H. finish_effect Hs H.
    + destruct (Finalize_read_failed d w err _ Hget) as (_ & ->).
      intros [= <- <-]. by apply effect_on_unchanged.
Qed.

Lemma run_effect r c d w e w' :
  run r c d w = Returned e w' → effect_on (group_key d) w e w'.
Proof.
  destruct (Reconcile_effect d w e w') as (R1 & R2 & R3).
  destruct (Finalize_effect d w e w') as (F1 & F2 & F3).
  destruct c as [|p q m|].
  - destruct r; simpl; assumption.
  - destruct (SetRoutes_effect d p q m w e w') as (S1 & S2 & S3).
    destruct r; simpl; assumption.
  - destruct r; simpl; assumption.
Qed.



(** X2.  No operation creates or deletes a group, and none touches a
    group other than its own: after [Reconcile], [SetRoutes] or
    [Finalize] of any revision the store has the same keys, and every key
    but (namespace, apex name) holds what it held. *)
Theorem only_own_group_is_written r c d w e w' :
  run r c d w = Returned e w' →
  dom (store w') = dom (store w)
  ∧ ∀ k, k ≠ group_key d → store w' !! k = store w !! k.
Proof.
  intros H.
  destruct (run_effect r c d w e w' H) as [[Hst|[_ (s & s' & Hs & _ & Hst)]] _];
    rewrite Hst; [done|].
  split.
  - rewrite dom_insert_L.
    apply subseteq_union_1_L, singleton_subseteq_l, elem_of_dom. by eexists.
  - intros k Hk. by rewrite lookup_insert_ne.
Qed.

Lemma only_own_group_is_written_witness :
  let w := two_group_world [primary_at 1000; canary_at 0] [mkWD "backend-80" "test" 1000] in
  let w' := world_left (GlooReplace.SetRoutes demo 70 30 false w) w in
  run RevGlooReplace (CallSetRoutes 70 30 false) demo w = Returned None w'
  ∧ dom (store w') = dom (store w)
  ∧ store w' !! ("test", "backend") = store w !! ("test", "backend").
Proof.
  intros w w'.
  assert (run RevGlooReplace (CallSetRoutes 70 30 false) demo w = Returned None w') as Hrun
    by (vm_compute; reflexivity).
  destruct (only_own_group_is_written _ _ _ _ _ _ Hrun) as [Hdom Hother].
  split; [exact Hrun|]. split; [exact Hdom|].
  apply Hother. discriminate.
Defined.

(** X3.  With no other writer between its read and its write, an update
    error an operation returns always wraps a transport failure: the
    object sent carries the name and the resource version just read, so
    the server finds it and raises no conflict. *)
Theorem update_error_is_transport_failure r c d w a n cause w' :
  run r c d w = Returned (Some (ErrUpdate a n cause)) w' →
  cause = StatusUnavailable.
Proof.
  intros H. destruct (run_effect r c d w _ w' H) as [_ Hcause]. by eapply Hcause.
Qed.

Lemma update_error_is_transport_failure_witness :
  let w := faulty_world [false; true] [primary_at 1000] in
  let w' := world_left (Part000.Reconcile demo w) w in
  run RevPart000 CallReconcile demo w
  = Returned (Some (ErrUpdate "podinfo" "test" StatusUnavailable)) w'
  ∧ StatusUnavailable = StatusUnavailable.
Proof.
  intros w w'.
  assert (run RevPart000 CallReconcile demo w
          = Returned (Some (ErrUpdate "podinfo" "test" StatusUnavailable)) w') as Hrun
    by (vm_compute; reflexivity).
  split; [exact Hrun|].
  exact (update_error_is_transport_failure _ _ _ _ _ _ _ _ Hrun).
Defined.

(** ** Reading the split *)

Lemma to_percent_in_range w :
  0 ≤ w < 2 ^ 32 →
  int_div (int_of_uint32 w) 10 = w ÷ 10
  ∧ int_sub 100 (int_div (int_of_uint32 w) 10) = 100 - w ÷ 10
  ∧ 0 ≤ w ÷ 10 ≤ 429496729.
Proof.
  intros Hw. unfold int_div, int_of_uint32, int_sub.
  rewrite (int_wrap_small w) by lia.
  assert (0 ≤ w ÷ 10 ≤ 429496729) as Hq.
  { rewrite Z.quot_div_nonneg by lia. split.
    - apply Z.div_pos; lia.
    - apply Z.lt_succ_r, Z.div_lt_upper_bound; lia. }
  rewrite (int_wrap_small (w ÷ 10)) by lia.
  split; [done|]. split; [|done]. apply int_wrap_small. lia.
Qed.

(** X4.  [GetRoutes] of every revision is a pure read: it returns, its
    one remote call is the [Get] of the rollout's group, the store is
    untouched, and [mirrored] is [false] whatever else it answers. *)
Theorem GetRoutes_reads_only r d w :
  match GetRoutes_of r d w with
  | Returned (_, _, mirrored, _) w' =>
      store w' = store w
      ∧ journal w' = journal w ++ [EvGet (CanaryNamespace d) (TargetRefName d)]
      ∧ faults w' = tail (faults w)
      ∧ mirrored = false
  | Panicked => False
  end.
Proof.
  destruct (Get_cases (CanaryNamespace d) (TargetRefName d) w) as [[g Hget]|[err Hget]].
  - destruct (decide (len (Destinations (Spec g)) < 2)) as [Hshort|Hlong].
    + destruct r; simpl;
        [ rewrite (Part000_GetRoutes_short d w g _ Hget Hshort)
        | rewrite (GlooUpsert_GetRoutes_short d w g _ Hget Hshort)
        | rewrite (GlooReplace_GetRoutes_short d w g _ Hget Hshort) ]; done.
    + destruct r; simpl;
        [ rewrite (Part000_GetRoutes_long d w g _ Hget) by lia
        | rewrite (GlooUpsert_GetRoutes_long d w g _ Hget) by lia
        | rewrite (GlooReplace_GetRoutes_long d w g _ Hget) by lia ];
        by destruct (range_find _ _) as [[? ?]|].
  - destruct (GetRoutes_read_failed d w err _ Hget) as (H1 & H2 & H3).
    destruct r; simpl; [rewrite H1 | rewrite H2 | rewrite H3]; done.
Qed.

(** X5.  When the stored weights fit their [uint32] field and
    [GetRoutes] returns a nil error, the two percents sum to 100, with
    one exception: [Part000] and [GlooReplace] answer (0, 0) when no
    entry bears the primary name. *)
Theorem GetRoutes_percents_sum_to_100 r d w ds p c m w' :
  stored_at (CanaryNamespace d) (TargetRefName d) w = Some ds →
  weights_in_range ds →
  GetRoutes_of r d w = Returned (p, c, m, None) w' →
  p + c = 100
  ∨ (r ≠ RevGlooUpsert ∧ p = 0 ∧ c = 0
     ∧ Forall (λ x, upstreamName x ≠ Sprintf_primary (TargetRefName d) (ServicePort d)) ds).
Proof.
  intros Hstored Hrange Hget.
  destruct (Get_cases (CanaryNamespace d) (TargetRefName d) w) as [[g Hg]|[err Hg]].
  2:{ destruct (GetRoutes_read_failed d w err _ Hg) as (H1 & H2 & H3).
      destruct r; simpl in Hget; congruence. }
  pose proof Hg as Hg'. apply Get_inl in Hg' as (s & Hs & -> & _ & _).
  unfold stored_at in Hstored. rewrite Hs in Hstored. injection Hstored as Hds.
  destruct (decide (len (Destinations (Spec (object_of (CanaryNamespace d) (TargetRefName d) s))) < 2))
    as [Hshort|Hlong].
  { destruct r; simpl in Hget;
      [ rewrite (Part000_GetRoutes_short d w _ _ Hg Hshort) in Hget
      | rewrite (GlooUpsert_GetRoutes_short d w _ _ Hg Hshort) in Hget
      | rewrite (GlooReplace_GetRoutes_short d w _ _ Hg Hshort) in Hget ]; done. }
  assert (∀ name i dst, range_find name ds = Some (i, dst) → 0 ≤ Weight dst < 2 ^ 32) as Hw.
  { intros name i dst (_ & Hlook & _)%range_find_Some.
    unfold weights_in_range in Hrange. rewrite Forall_forall in Hrange.
    apply Hrange. by eapply list_elem_of_lookup_2. }
  destruct r; simpl in Hget;
    [ rewrite (Part000_GetRoutes_long d w _ _ Hg) in Hget by lia
    | rewrite (GlooUpsert_GetRoutes_long d w _ _ Hg) in Hget by lia
    | rewrite (GlooReplace_GetRoutes_long d w _ _ Hg) in Hget by lia ];
    simpl in Hget; rewrite Hds in Hget;
    destruct (range_find _ ds) as [[i dst]|] eqn:Hfind; try done.
  - destruct (to_percent_in_range _ (Hw _ _ _ Hfind)) as (Hq & Hsub & _).
    rewrite Hsub, Hq in Hget. injection Hget as <- <- _ _. left. lia.
  - injection Hget as <- <- _ _. right. repeat split; try done.
    by apply range_find_None.
  - destruct (to_percent_in_range _ (Hw _ _ _ Hfind)) as (Hq & Hsub & _).
    rewrite Hsub, Hq in Hget. injection Hget as <- <- _ _. left. lia.
  - destruct (to_percent_in_range _ (Hw _ _ _ Hfind)) as (Hq & Hsub & _).
    rewrite Hsub, Hq in Hget. injection Hget as <- <- _ _. left. lia.
  - injection Hget as <- <- _ _. right. repeat split; try done.
    by apply range_find_None.
Qed.

Lemma GetRoutes_percents_sum_to_100_witness :
  let ds := [primary_at 4294967295; canary_at 123] in
  let w := world_of ds in
  let w' := world_left (GlooUpsert.GetRoutes demo w) w in
  GetRoutes_of RevGlooUpsert demo w = Returned (88, 12, false, None) w'
  ∧ (88 + 12 = 100
     ∨ (RevGlooUpsert ≠ RevGlooUpsert ∧ 88 = 0 ∧ 12 = 0
        ∧ Forall (λ x, upstreamName x
                        ≠ Sprintf_primary (TargetRefName demo) (ServicePort demo)) ds)).
Proof.
  intros ds w w'.
  assert (GetRoutes_of RevGlooUpsert demo w = Returned (88, 12, false, None) w') as Hget
    by (vm_compute; reflexivity).
  assert (weights_in_range ds) as Hrange
    by (repeat constructor; simpl; lia).
  split; [exact Hget|].
  exact (GetRoutes_percents_sum_to_100 RevGlooUpsert demo w ds 88 12 false w'
           eq_refl Hrange Hget).
Defined.

(** ** Removal and panics *)

(** X6.  [remove(s, i)] panics exactly when [i] is not an index of [s]
    (in particular on every empty slice).  Otherwise it returns a slice
    one shorter that holds every element of [s] but the one at [i], each
    exactly once, and keeps the elements before [i] in place. *)
Theorem remove_panics_or_drops_one s i w :
  match remove s i w with
  | Returned s' w' =>
      w' = w ∧ 0 ≤ i < len s
      ∧ (∃ x, s !! Z.to_nat i = Some x ∧ s ≡ₚ x :: s')
      ∧ length s = S (length s')
      ∧ take (Z.to_nat i) s' = take (Z.to_nat i) s
  | Panicked => ¬ (0 ≤ i < len s)
  end.
Proof.
  destruct (decide (0 ≤ i < len s)) as [Hi|Hi].
  - destruct (s !! Z.to_nat i) as [x|] eqn:Hx.
    2:{ apply lookup_ge_None in Hx. unfold len in Hi. lia. }
    destruct (remove_ok s i x w ltac:(lia) Hx) as (s' & Hrm & Hperm & Hlen).
    pose proof Hrm as Hrm'. rewrite Hrm.
    split; [done|]. split; [done|]. split; [by exists x|]. split; [done|].
    revert Hrm'. unfold remove. rewrite bind_eq.
    destruct (index s (len s - 1) w) as [l w0|] eqn:Hidx; [|done].
    assert (w0 = w) as ->.
    { revert Hidx. unfold index. case_decide; [|done].
      destruct (s !! Z.to_nat (len s - 1)); [|done]. by intros [= _ <-]. }
    rewrite bind_eq, assign_ok by done.
    unfold slice_to. rewrite length_insert. unfold len.
    rewrite decide_True by lia. cbv [mret Op_ret]. intros Heq. injection Heq as <-.
    rewrite take_take, Nat.min_l by (unfold len in Hi; lia).
    apply take_insert_ge. lia.
  - unfold remove. rewrite bind_eq.
    destruct (index s (len s - 1) w) as [l w0|] eqn:Hidx; [|done].
    unfold assign. fold (len s). rewrite bind_eq. by rewrite decide_False.
Qed.

(** X7.  The only panic in the router: [Finalize] of [Part000] when it
    has read a group whose destination list is empty.  Every other call
    of [Reconcile], [SetRoutes] or [Finalize], in every revision and on
    every world, returns to its caller. *)
Theorem only_Part000_Finalize_on_empty_panics r c d w :
  returns (run r c d w) ↔
  ¬ (r = RevPart000 ∧ c = CallFinalize
     ∧ stored_at (CanaryNamespace d) (TargetRefName d) w = Some []
     ∧ next_is_faulty w = false).
Proof.
  destruct (Reconcile_returns d w) as (R1 & R2 & R3).
  destruct (Finalize_returns d w) as (F2 & F3).
  destruct c as [|p q m|].
  - split; [by intros _ (_ & ? & _)|]. intros _. destruct r; simpl; assumption.
  - destruct (SetRoutes_returns d p q m w) as (S1 & S2 & S3).
    split; [by intros _ (_ & ? & _)|]. intros _. destruct r; simpl; assumption.
  - destruct r; simpl; try (split; [by intros _ (? & _)|]; intros _; assumption).
    rewrite Part000_Finalize_returns_iff. apply not_iff_compat. split.
    + intros (g & w1 & Hget & Hnil).
      apply Get_inl in Hget as (s & Hs & -> & Hf & _).
      repeat split; try done. unfold stored_at. rewrite Hs. simpl in *. by rewrite Hnil.
    + intros (_ & _ & Hst & Hf). unfold stored_at in Hst.
      destruct (store w !! (CanaryNamespace d, TargetRefName d)) as [s|] eqn:Hs; [|done].
      injection Hst as Hnil.
      exists (object_of (CanaryNamespace d) (TargetRefName d) s),
             (after_call (EvGet (CanaryNamespace d) (TargetRefName d)) w).
      split; [|done]. rewrite Get_eq. unfold Get_result. by rewrite Hf, Hs.
Qed.

(** ** Names *)

Lemma string_app_assoc (s1 s2 s3 : string) : (s1 +:+ s2) +:+ s3 = s1 +:+ s2 +:+ s3.
Proof. induction s1 as [|a s1 IH]; [done|]. exact (f_equal (String a) IH). Qed.

(** X8.  The derived destination names.  For one rollout the primary and
    the canary name always differ, and for one apex name different ports
    give different names.  Across rollouts the names can coincide: the
    primary name of apex ["x-canary"] is the canary name of apex ["x"] on
    the same port. *)
Theorem derived_names_distinct_within_a_rollout apexName port port' :
  Sprintf_primary apexName port ≠ Sprintf_canary apexName port
  ∧ (Sprintf_canary apexName port = Sprintf_canary apexName port' ↔ port = port')
  ∧ (Sprintf_primary apexName port = Sprintf_primary apexName port' ↔ port = port')
  ∧ Sprintf_primary (apexName +:+ "-canary") port = Sprintf_canary apexName port.
Proof.
  split; [apply primary_ne_canary|].
  unfold Sprintf_canary, Sprintf_primary.
  split; [|split].
  - split; [|by intros ->].
    intros H. apply (inj (String.app apexName)), (inj (String.app "-canary-")) in H.
    by apply (inj pretty).
  - split; [|by intros ->].
    intros H. apply (inj (String.app apexName)), (inj (String.app "-")) in H.
    by apply (inj pretty).
  - by rewrite string_app_assoc.
Qed.

(** ** A missing group *)

(** X9.  When the rollout's group is not on the server (and the read
    goes through), [Reconcile] of every revision returns its own
    "not found" error, while [GetRoutes], [SetRoutes] and the reading
    [Finalize]s return their query errors wrapping the client's
    not-found status; all of them stop after the one [Get]. *)
Theorem missing_group_errors r d w :
  store w !! group_key d = None →
  next_is_faulty w = false →
  let apex := TargetRefName d in
  let ns := CanaryNamespace d in
  let w1 := after_call (EvGet ns apex) w in
  run r CallReconcile d w = Returned (Some (ErrNotFound apex ns)) w1
  ∧ GetRoutes_of r d w
    = Returned (0, 0, false, Some (ErrGetQuery apex ns StatusNotFound)) w1
  ∧ (∀ p c m, ¬ (p = 0 ∧ c = 0) →
       run r (CallSetRoutes p c m) d w
       = Returned (Some (ErrQuery apex ns StatusNotFound)) w1)
  ∧ (r ≠ RevGlooReplace →
       run r CallFinalize d w = Returned (Some (ErrQuery apex ns StatusNotFound)) w1).
Proof.
  intros Hnone Hok apex ns w1. subst apex ns w1.
  assert (Get (CanaryNamespace d) (TargetRefName d) w
          = Returned (inr StatusNotFound)
                     (after_call (EvGet (CanaryNamespace d) (TargetRefName d)) w)) as Hget.
  { rewrite Get_eq. unfold Get_result. unfold group_key in Hnone.
    by rewrite Hok, Hnone. }
  destruct (Reconcile_read_failed d w _ _ Hget) as (R1 & R2 & R3).
  destruct (GetRoutes_read_failed d w _ _ Hget) as (G1 & G2 & G3).
  destruct (Finalize_read_failed d w _ _ Hget) as (F1 & F2).
  split; [by destruct r|]. split; [by destruct r|]. split.
  - intros p c m Hnz.
    destruct (SetRoutes_read_failed d p c m w _ _ Hnz Hget) as (S1 & S2 & S3).
    by destruct r.
  - intros Hr. by destruct r.
Qed.

Lemma missing_group_errors_witness :
  let d := {| CanaryName := "cart"; CanaryNamespace := "test";
              TargetRefName := "cart"; ServicePort := 80 |} in
  let w := world_of [primary_at 1000] in
  let w1 := after_call (EvGet "test" "cart") w in
  run RevGlooUpsert CallReconcile d w = Returned (Some (ErrNotFound "cart" "test")) w1
  ∧ GetRoutes_of RevGlooUpsert d w
    = Returned (0, 0, false, Some (ErrGetQuery "cart" "test" StatusNotFound)) w1
  ∧ run RevGlooUpsert (CallSetRoutes 70 30 false) d w
    = Returned (Some (ErrQuery "cart" "test" StatusNotFound)) w1
  ∧ run RevGlooUpsert CallFinalize d w
    = Returned (Some (ErrQuery "cart" "test" StatusNotFound)) w1.
Proof.
  intros d w w1.
  destruct (missing_group_errors RevGlooUpsert d w
              ltac:(vm_compute; reflexivity) eq_refl) as (HR & HG & HS & HF).
  split; [exact HR|]. split; [exact HG|]. split.
  - apply HS. lia.
  - apply HF. discriminate.
Defined.

(** ** Writing the split *)


(** What an operation made of one read and one write has left when it
    returned nil: the list of the object it sent. *)
Lemma write_nil_inv d w w' :
  ∀ (op : Op (option RouterError)) obj_of,
  (∀ g w1, Get (CanaryNamespace d) (TargetRefName d) w = Returned (inl g) w1 →
     op w = Returned (match Update_result (CanaryNamespace d) (obj_of g) w1 with
                      | inr err => Some (ErrUpdate (TargetRefName d) (CanaryNamespace d) err)
                      | inl _ => None
                      end)
                     (Update_world (CanaryNamespace d) (obj_of g) w1)) →
  (∀ err w1, Get (CanaryNamespace d) (TargetRefName d) w = Returned (inr err) w1 →
     ∃ e, op w = Returned (Some e) w1) →
  (∀ g, ObjName (obj_of g) = ObjName g) →
  op w = Returned None w' →
  ∃ s, store w !! group_key d = Some s
       ∧ stored_at (CanaryNamespace d) (TargetRefName d) w'
         = Some (Destinations (Spec (obj_of (object_of (CanaryNamespace d) (TargetRefName d) s)))).
Proof.
  intros op obj_of Hok Hfail Hname Hop.
  destruct (Get_cases (CanaryNamespace d) (TargetRefName d) w) as [[g Hget]|[err Hget]].
  - rewrite (Hok g _ Hget) in Hop.
    apply Get_inl in Hget as (s & Hs & -> & _ & _).
    exists s. split; [done|].
    destruct (Update_result _ _ _) as [o|err] eqn:Hupd; [|done].
    injection Hop as <-. unfold stored_at.
    rewrite (Update_result_inl _ _ _ _ Hupd), Hname. simpl.
    by rewrite lookup_insert_eq.
  - destruct (Hfail err _ Hget) as [e He]. congruence.
Qed.





(** X12.  [SetRoutes] of [GlooReplace] that returns nil has replaced the
    stored list, whatever it held, by exactly two entries: the primary at
    [primaryWeight * 10] and the canary at [canaryWeight * 10], both
    modulo 2^32.  Entries of other names are gone. *)
Theorem GlooReplace_SetRoutes_replaces_list d p c m w w' :
  GlooReplace.SetRoutes d p c m w = Returned None w' →
  stored_at (CanaryNamespace d) (TargetRefName d) w'
  = Some [mkWD (Sprintf_primary (TargetRefName d) (ServicePort d)) (CanaryNamespace d)
               ((p * 10) mod 2 ^ 32);
          mkWD (Sprintf_canary (TargetRefName d) (ServicePort d)) (CanaryNamespace d)
               ((c * 10) mod 2 ^ 32)].
Proof.
  intros Hset.
  assert (¬ (p = 0 ∧ c = 0)) as Hnz.
  { intros [-> ->]. destruct (zero_zero_rejected_everywhere d m w) as (_ & _ & H).
    congruence. }
  destruct (write_nil_inv d w w' (GlooReplace.SetRoutes d p c m)
              (λ g, withDestinations g
                 [mkWD (Sprintf_primary (TargetRefName d) (ServicePort d)) (CanaryNamespace d)
                       (uint32_of_int (int_mul p 10));
                  mkWD (Sprintf_canary (TargetRefName d) (ServicePort d)) (CanaryNamespace d)
                       (uint32_of_int (int_mul c 10))]))
    as (s & Hs & Hst); try done.
  - intros g w1 Hget. by apply GlooReplace_SetRoutes_eq.
  - intros err w1 Hget.
    destruct (SetRoutes_read_failed d p c m w err w1 Hnz Hget) as (_ & _ & H). by eexists.
  - rewrite Hst. simpl. by rewrite !uint32_of_int_mul.
Qed.

Lemma GlooReplace_SetRoutes_replaces_list_witness :
  let w := world_of [mkWD "blue" "test" 400; mkWD "green" "test" 300; mkWD "red" "test" 300] in
  let w' := world_left (GlooReplace.SetRoutes demo 70 30 false w) w in
  GlooReplace.SetRoutes demo 70 30 false w = Returned None w'
  ∧ stored_at "test" "podinfo" w' = Some [primary_at 700; canary_at 300].
Proof.
  intros w w'.
  assert (GlooReplace.SetRoutes demo 70 30 false w = Returned None w') as Hset
    by (vm_compute; reflexivity).
  split; [exact Hset|].
  exact (GlooReplace_SetRoutes_replaces_list demo 70 30 false w w' Hset).
Defined.

(** ** Reconciling *)

(** A read of a stored group that goes through hands back its list. *)
Lemma Get_of_stored ns name w ds :
  stored_at ns name w = Some ds →
  next_is_faulty w = false →
  ∃ g, Get ns name w = Returned (inl g) (after_call (EvGet ns name) w)
       ∧ Destinations (Spec g) = ds.
Proof.
  intros Hst Hok. unfold stored_at in Hst.
  destruct (store w !! (ns, name)) as [s|] eqn:Hs; [|done]. injection Hst as Hds.
  exists (object_of ns name s). split; [|done].
  rewrite Get_eq. unfold Get_result. by rewrite Hok, Hs.
Qed.

(** X13.  A [Reconcile] of [GlooReplace] that returns nil has done one
    of two things.  If the stored list already names the primary and the
    canary, in this order and in the rollout's namespace, nothing is
    written and the stored weights stay.  Otherwise one [Update] replaces
    the list by the primary at 1000 and the canary at 0. *)
Theorem GlooReplace_Reconcile_keeps_or_resets d w w' ds :
  stored_at (CanaryNamespace d) (TargetRefName d) w = Some ds →
  GlooReplace.Reconcile d w = Returned None w' →
  let canonical := Destinations (canonical_spec d) in
  (Dest <$> ds = Dest <$> canonical
   ∧ store w' = store w
   ∧ updates (journal w') = updates (journal w))
  ∨ (Dest <$> ds ≠ Dest <$> canonical
     ∧ stored_at (CanaryNamespace d) (TargetRefName d) w' = Some canonical
     ∧ updates (journal w') = S (updates (journal w))).
Proof.
  intros Hstored Hrec canonical.
  destruct (Get_cases (CanaryNamespace d) (TargetRefName d) w) as [[g Hget]|[err Hget]].
  2:{ destruct (Reconcile_read_failed d w err _ Hget) as (_ & _ & H). congruence. }
  rewrite (GlooReplace_Reconcile_eq d w g _ Hget) in Hrec.
  apply Get_inl in Hget as (s & Hs & -> & _ & _).
  unfold stored_at in Hstored. rewrite Hs in Hstored. injection Hstored as Hds.
  destruct (GlooReplace.DiffIgnoringWeight _ _) eqn:Hdiff;
    unfold GlooReplace.DiffIgnoringWeight in Hdiff;
    cbn [Spec object_of] in Hdiff; rewrite Hds in Hdiff; fold canonical in Hdiff;
    case_decide as Hshape; try done.
  2:{ injection Hrec as <-. left. split; [done|]. split; [done|].
      by rewrite updates_after_Get. }
  - destruct (Update_result _ _ _) as [o|err] eqn:Hupd; [|done].
    injection Hrec as <-. right. split; [congruence|]. split.
    + pose proof (Update_result_inl _ _ _ _ Hupd) as Hst.
      unfold stored_at. change (store (logged ?e ?w0)) with (store w0).
      cbn [object_of ObjName ObjNamespace ResourceVersion Spec] in Hst |- *.
      rewrite Hst. by rewrite lookup_insert_eq.
    + by rewrite updates_logged_info, updates_Update_world, updates_after_Get.
Qed.

Lemma GlooReplace_Reconcile_keeps_or_resets_witness :
  let ds := [primary_at 700; canary_at 300] in
  let w := world_of ds in
  let w' := world_left (GlooReplace.Reconcile demo w) w in
  let canonical := Destinations (canonical_spec demo) in
  GlooReplace.Reconcile demo w = Returned None w'
  ∧ ((Dest <$> ds = Dest <$> canonical
      ∧ store w' = store w
      ∧ updates (journal w') = updates (journal w))
     ∨ (Dest <$> ds ≠ Dest <$> canonical
        ∧ stored_at (CanaryNamespace demo) (TargetRefName demo) w' = Some canonical
        ∧ updates (journal w') = S (updates (journal w)))).
Proof.
  intros ds w w' canonical.
  assert (GlooReplace.Reconcile demo w = Returned None w') as Hrec
    by (vm_compute; reflexivity).
  split; [exact Hrec|].
  exact (GlooReplace_Reconcile_keeps_or_resets demo w w' ds eq_refl Hrec).
Defined.

(** X14.  A [Reconcile] of [Part000] that returns nil has issued exactly
    one [Update], whatever the group held.  With no canary entry it wrote
    the list with the canary appended at weight zero; with a canary entry
    it wrote [len + 1] zero-valued entries followed by the list. *)
Theorem Part000_Reconcile_written_list d w w' ds :
  stored_at (CanaryNamespace d) (TargetRefName d) w = Some ds →
  Part000.Reconcile d w = Returned None w' →
  let canaryName := Sprintf_canary (TargetRefName d) (ServicePort d) in
  updates (journal w') = S (updates (journal w))
  ∧ ((Forall (λ x, upstreamName x ≠ canaryName) ds
      ∧ stored_at (CanaryNamespace d) (TargetRefName d) w'
        = Some (ds ++ [mkWD canaryName (CanaryNamespace d) 0]))
     ∨ ((∃ x, x ∈ ds ∧ upstreamName x = canaryName)
        ∧ stored_at (CanaryNamespace d) (TargetRefName d) w'
          = Some (replicate (S (length ds)) zeroWD ++ ds))).
Proof.
  intros Hstored Hrec canaryName.
  destruct (Get_cases (CanaryNamespace d) (TargetRefName d) w) as [[g Hget]|[err Hget]].
  2:{ destruct (Reconcile_read_failed d w err _ Hget) as (H & _ & _). congruence. }
  rewrite (Part000_Reconcile_eq d w g _ Hget) in Hrec.
  apply Get_inl in Hget as (s & Hs & -> & _ & _).
  unfold stored_at in Hstored. rewrite Hs in Hstored. injection Hstored as Hds.
  simpl in Hrec. rewrite Hds in Hrec. fold canaryName in Hrec.
  destruct (Update_result _ _ _) as [o|err] eqn:Hupd; [|done].
  injection Hrec as <-.
  split; [by rewrite updates_logged_info, updates_Update_world, updates_after_Get|].
  unfold stored_at. change (store (logged ?e ?w0)) with (store w0).
  rewrite (Update_result_inl _ _ _ _ Hupd). cbn [ObjName withDestinations Spec].
  rewrite lookup_insert_eq. simpl.
  destruct (range_find canaryName ds) as [[i dst]|] eqn:Hfind.
  - right. split; [|done].
    apply range_find_Some in Hfind as (_ & Hlook & Hname).
    exists dst. split; [by eapply list_elem_of_lookup_2 | done].
  - left. split; [by apply range_find_None | done].
Qed.

Lemma Part000_Reconcile_written_list_witness :
  let ds := [canary_at 250; primary_at 750] in
  let w := world_of ds in
  let w' := world_left (Part000.Reconcile demo w) w in
  let canaryName := Sprintf_canary (TargetRefName demo) (ServicePort demo) in
  Part000.Reconcile demo w = Returned None w'
  ∧ updates (journal w') = S (updates (journal w))
  ∧ ((Forall (λ x, upstreamName x ≠ canaryName) ds
      ∧ stored_at (CanaryNamespace demo) (TargetRefName demo) w'
        = Some (ds ++ [mkWD canaryName (CanaryNamespace demo) 0]))
     ∨ ((∃ x, x ∈ ds ∧ upstreamName x = canaryName)
        ∧ stored_at (CanaryNamespace demo) (TargetRefName demo) w'
          = Some (replicate (S (length ds)) zeroWD ++ ds))).
Proof.
  intros ds w w' canaryName.
  assert (Part000.Reconcile demo w = Returned None w') as Hrec
    by (vm_compute; reflexivity).
  split; [exact Hrec|].
  exact (Part000_Reconcile_written_list demo w w' ds eq_refl Hrec).
Defined.

(** X15.  In [GlooUpsert], on a non-empty group with no canary entry, a
    [Reconcile] that returns nil sets the rollout up: the [GetRoutes]
    that follows, its read going through, returns (100, 0, false) and no
    error. *)
Theorem GlooUpsert_Reconcile_then_GetRoutes d w w1 ds :
  stored_at (CanaryNamespace d) (TargetRefName d) w = Some ds →
  ds ≠ [] →
  Forall (λ x, upstreamName x ≠ Sprintf_canary (TargetRefName d) (ServicePort d)) ds →
  GlooUpsert.Reconcile d w = Returned None w1 →
  next_is_faulty w1 = false →
  GlooUpsert.GetRoutes d w1
  = Returned (100, 0, false, None)
             (after_call (EvGet (CanaryNamespace d) (TargetRefName d)) w1).
Proof.
  intros Hstored Hne Hall Hrec Hok.
  set (ns := CanaryNamespace d) in *. set (apex := TargetRefName d) in *.
  set (cn := Sprintf_canary apex (ServicePort d)) in *.
  assert (stored_at ns apex w1 = Some (ds ++ [mkWD cn ns 0])) as Hst1.
  { destruct (Get_cases ns apex w) as [[g Hget]|[err Hget]].
    2:{ destruct (Reconcile_read_failed d w err _ Hget) as (_ & H & _). congruence. }
    rewrite (GlooUpsert_Reconcile_eq d w g _ Hget) in Hrec.
    apply Get_inl in Hget as (s & Hs & -> & _ & _).
    unfold stored_at in Hstored. rewrite Hs in Hstored. injection Hstored as Hds.
    simpl in Hrec. rewrite Hds in Hrec. fold apex cn ns in Hrec.
    apply range_find_None in Hall. rewrite Hall in Hrec.
    destruct (Update_result _ _ _) as [o|err] eqn:Hupd; [|done].
    injection Hrec as <-.
    unfold stored_at. change (store (logged ?e ?w0)) with (store w0).
    rewrite (Update_result_inl _ _ _ _ Hupd). cbn [ObjName withDestinations Spec object_of].
    by rewrite lookup_insert_eq. }
  destruct (Get_of_stored ns apex w1 _ Hst1 Hok) as (g & Hget & Hds).
  rewrite (GlooUpsert_GetRoutes_long d w1 g _ Hget).
  - rewrite Hds. fold apex cn. unfold range_find.
    rewrite (range_find_from_app 0 cn ds (mkWD cn ns 0) [] Hall eq_refl). done.
  - rewrite Hds. unfold len. rewrite length_app. simpl.
    destruct ds; [done|]. simpl. lia.
Qed.

Lemma GlooUpsert_Reconcile_then_GetRoutes_witness :
  let ds := [primary_at 1000] in
  let w := world_of ds in
  let w1 := world_left (GlooUpsert.Reconcile demo w) w in
  GlooUpsert.Reconcile demo w = Returned None w1
  ∧ GlooUpsert.GetRoutes demo w1
    = Returned (100, 0, false, None) (after_call (EvGet "test" "podinfo") w1).
Proof.
  intros ds w w1.
  assert (GlooUpsert.Reconcile demo w = Returned None w1) as Hrec
    by (vm_compute; reflexivity).
  assert (Forall (λ x, upstreamName x
                       ≠ Sprintf_canary (TargetRefName demo) (ServicePort demo)) ds) as Hall
    by (constructor; [by vm_compute | constructor]).
  split; [exact Hrec|].
  exact (GlooUpsert_Reconcile_then_GetRoutes demo w w1 ds eq_refl ltac:(discriminate)
           Hall Hrec eq_refl).
Defined.

(** ** Finalizing *)

(** What a [Finalize] of [GlooUpsert] that returned nil has left. *)
Lemma GlooUpsert_Finalize_nil_inv d w w' ds :
  stored_at (CanaryNamespace d) (TargetRefName d) w = Some ds →
  GlooUpsert.Finalize d w = Returned None w' →
  ∃ ds', stored_at (CanaryNamespace d) (TargetRefName d) w' = Some ds'
    ∧ match range_find (Sprintf_canary (TargetRefName d) (ServicePort d)) ds with
      | Some (_, dst) => ds ≡ₚ dst :: ds'
      | None => ds' = ds
      end.
Proof.
  intros Hstored Hfin.
  destruct (Get_cases (CanaryNamespace d) (TargetRefName d) w) as [[g Hget]|[err Hget]].
  2:{ destruct (Finalize_read_failed d w err _ Hget) as (_ & H). congruence. }
  destruct (GlooUpsert_Finalize_eq d w g _ Hget) as (ds' & Hds' & Heq).
  rewrite Heq in Hfin.
  apply Get_inl in Hget as (s & Hs & -> & _ & _).
  unfold stored_at in Hstored. rewrite Hs in Hstored. injection Hstored as Hds.
  simpl in Hds'. rewrite Hds in Hds'.
  destruct (Update_result _ _ _) as [o|err] eqn:Hupd; [|done].
  injection Hfin as <-. exists ds'. split; [|done].
  unfold stored_at. rewrite (Update_result_inl _ _ _ _ Hupd).
  cbn [ObjName withDestinations Spec object_of]. by rewrite lookup_insert_eq.
Qed.

(** X16.  A [Finalize] of [GlooUpsert] that returns nil removes at most
    one entry, and only one that bears the canary name: either the group
    had no canary entry and its list is unchanged, or the stored list now
    holds every entry but one canary entry, each exactly once. *)
Theorem GlooUpsert_Finalize_drops_at_most_one_canary d w w' ds :
  stored_at (CanaryNamespace d) (TargetRefName d) w = Some ds →
  GlooUpsert.Finalize d w = Returned None w' →
  let canaryName := Sprintf_canary (TargetRefName d) (ServicePort d) in
  ∃ ds', stored_at (CanaryNamespace d) (TargetRefName d) w' = Some ds'
    ∧ ((Forall (λ x, upstreamName x ≠ canaryName) ds ∧ ds' = ds)
       ∨ (∃ dst, upstreamName dst = canaryName ∧ ds ≡ₚ dst :: ds')).
Proof.
  intros Hstored Hfin canaryName.
  destruct (GlooUpsert_Finalize_nil_inv d w w' ds Hstored Hfin) as (ds' & Hst & Hds').
  exists ds'. split; [done|]. fold canaryName in Hds'.
  destruct (range_find canaryName ds) as [[i dst]|] eqn:Hfind.
  - right. exists dst. split; [|done]. by apply range_find_Some in Hfind as (_ & _ & ?).
  - left. split; [by apply range_find_None | done].
Qed.

Lemma GlooUpsert_Finalize_drops_at_most_one_canary_witness :
  let ds := [canary_at 300; primary_at 700; mkWD "other" "test" 5] in
  let w := world_of ds in
  let w' := world_left (GlooUpsert.Finalize demo w) w in
  let canaryName := Sprintf_canary (TargetRefName demo) (ServicePort demo) in
  GlooUpsert.Finalize demo w = Returned None w'
  ∧ ∃ ds', stored_at (CanaryNamespace demo) (TargetRefName demo) w' = Some ds'
      ∧ ((Forall (λ x, upstreamName x ≠ canaryName) ds ∧ ds' = ds)
         ∨ (∃ dst, upstreamName dst = canaryName ∧ ds ≡ₚ dst :: ds')).
Proof.
  intros ds w w' canaryName.
  assert (GlooUpsert.Finalize demo w = Returned None w') as Hfin
    by (vm_compute; reflexivity).
  split; [exact Hfin|].
  exact (GlooUpsert_Finalize_drops_at_most_one_canary demo w w' ds eq_refl Hfin).
Defined.

(** After a nil [Finalize] on a group with one canary entry, no entry
    bears the canary name. *)
Lemma GlooUpsert_Finalize_clears_single_canary d w w' pre cdst post :
  stored_at (CanaryNamespace d) (TargetRefName d) w = Some (pre ++ cdst :: post) →
  Forall (λ x, upstreamName x ≠ Sprintf_canary (TargetRefName d) (ServicePort d))
         (pre ++ post) →
  upstreamName cdst = Sprintf_canary (TargetRefName d) (ServicePort d) →
  GlooUpsert.Finalize d w = Returned None w' →
  ∃ ds', stored_at (CanaryNamespace d) (TargetRefName d) w' = Some ds'
    ∧ pre ++ post ≡ₚ ds'
    ∧ Forall (λ x, upstreamName x ≠ Sprintf_canary (TargetRefName d) (ServicePort d)) ds'.
Proof.
  intros Hstored Hall Hname Hfin.
  destruct (GlooUpsert_Finalize_nil_inv d w w' _ Hstored Hfin) as (ds' & Hst & Hds').
  apply Forall_app in Hall as [Hpre Hpost].
  unfold range_find in Hds'.
  rewrite (range_find_from_app 0 _ pre cdst post Hpre Hname) in Hds'.
  rewrite <- Permutation_middle in Hds'. apply Permutation_cons_inv in Hds'.
  exists ds'. split; [done|]. split; [done|].
  rewrite <- Hds'. apply Forall_app. by split.
Qed.

(** X17.  In [GlooUpsert], after a [Finalize] that returned nil on a
    group with exactly one canary entry, [GetRoutes] no longer reports a
    split: it returns an error (too few destinations, canary destination
    not found, or the query error of a failed read), never nil. *)
Theorem GlooUpsert_Finalize_then_GetRoutes_fails d w w' pre cdst post :
  stored_at (CanaryNamespace d) (TargetRefName d) w = Some (pre ++ cdst :: post) →
  Forall (λ x, upstreamName x ≠ Sprintf_canary (TargetRefName d) (ServicePort d))
         (pre ++ post) →
  upstreamName cdst = Sprintf_canary (TargetRefName d) (ServicePort d) →
  GlooUpsert.Finalize d w = Returned None w' →
  ∃ err w'', GlooUpsert.GetRoutes d w' = Returned (0, 0, false, Some err) w''
    ∧ (next_is_faulty w' = false →
         if decide (length (pre ++ post) < 2)%nat
         then isInsufficientDestinations err = true
         else isDestinationNotFound err = true).
Proof.
  intros Hstored Hall Hname Hfin.
  destruct (GlooUpsert_Finalize_clears_single_canary d w w' pre cdst post
              Hstored Hall Hname Hfin) as (ds' & Hst & Hperm & Hnone).
  destruct (Get_cases (CanaryNamespace d) (TargetRefName d) w') as [[g Hget]|[err Hget]].
  - pose proof Hget as Hg. apply Get_inl in Hg as (s & Hs & -> & _ & _).
    unfold stored_at in Hst. rewrite Hs in Hst. injection Hst as Hds.
    assert (length ds' = length (pre ++ post)) as Hlen by (by rewrite Hperm).
    case_decide as Hshort.
    + rewrite (GlooUpsert_GetRoutes_short d w' _ _ Hget)
        by (simpl; rewrite Hds; unfold len; lia).
      by do 2 eexists.
    + rewrite (GlooUpsert_GetRoutes_long d w' _ _ Hget)
        by (simpl; rewrite Hds; unfold len; lia).
      simpl. rewrite Hds. apply range_find_None in Hnone. rewrite Hnone.
      by do 2 eexists.
  - destruct (GetRoutes_read_failed d w' err _ Hget) as (_ & -> & _).
    do 2 eexists. split; [done|]. intros Hok.
    rewrite Get_eq in Hget. unfold Get_result in Hget. rewrite Hok in Hget.
    unfold stored_at in Hst.
    destruct (store w' !! (CanaryNamespace d, TargetRefName d)); done.
Qed.

Lemma GlooUpsert_Finalize_then_GetRoutes_fails_witness :
  let w := world_of [primary_at 700; canary_at 300] in
  let w' := world_left (GlooUpsert.Finalize demo w) w in
  GlooUpsert.Finalize demo w = Returned None w'
  ∧ ∃ err w'', GlooUpsert.GetRoutes demo w' = Returned (0, 0, false, Some err) w''
      ∧ (next_is_faulty w' = false →
           if decide (length ([primary_at 700] ++ []) < 2)%nat
           then isInsufficientDestinations err = true
           else isDestinationNotFound err = true).
Proof.
  intros w w'.
  assert (GlooUpsert.Finalize demo w = Returned None w') as Hfin
    by (vm_compute; reflexivity).
  assert (Forall (λ x, upstreamName x
                       ≠ Sprintf_canary (TargetRefName demo) (ServicePort demo))
                 ([primary_at 700] ++ [])) as Hall
    by (constructor; [by vm_compute | constructor]).
  split; [exact Hfin|].
  exact (GlooUpsert_Finalize_then_GetRoutes_fails demo w w' [primary_at 700]
           (canary_at 300) [] eq_refl Hall eq_refl Hfin).
Defined.

(** X18.  [Finalize] of [GlooUpsert] is idempotent on a rollout with one
    canary entry: once it has returned nil, a second [Finalize] leaves
    every stored list as the first one left it, whatever it returns. *)
Theorem GlooUpsert_Finalize_twice d w w' e w'' pre cdst post :
  stored_at (CanaryNamespace d) (TargetRefName d) w = Some (pre ++ cdst :: post) →
  Forall (λ x, upstreamName x ≠ Sprintf_canary (TargetRefName d) (ServicePort d))
         (pre ++ post) →
  upstreamName cdst = Sprintf_canary (TargetRefName d) (ServicePort d) →
  GlooUpsert.Finalize d w = Returned None w' →
  GlooUpsert.Finalize d w' = Returned e w'' →
  stored_at (CanaryNamespace d) (TargetRefName d) w''
  = stored_at (CanaryNamespace d) (TargetRefName d) w'.
Proof.
  intros Hstored Hall Hname Hfin Hfin2.
  destruct (GlooUpsert_Finalize_clears_single_canary d w w' pre cdst post
              Hstored Hall Hname Hfin) as (ds' & Hst & _ & Hnone).
  destruct (Get_cases (CanaryNamespace d) (TargetRefName d) w') as [[g Hget]|[err Hget]].
  - pose proof Hget as Hg. apply Get_inl in Hg as (s & Hs & Hgeq & Hf & _).
    assert (Destinations (Spec g) = ds') as Hds.
    { unfold stored_at in Hst. rewrite Hs in Hst. injection Hst as <-. by rewrite Hgeq. }
    rewrite <- Hds in Hnone.
    destruct (GlooUpsert_Finalize_no_canary d w' g _ Hget Hnone)
      as (e' & w2 & Heq & Hkeep & _).
    rewrite Heq in Hfin2. injection Hfin2 as <- <-. apply Hkeep.
  - destruct (Finalize_read_failed d w' err _ Hget) as (_ & H).
    rewrite H in Hfin2. by injection Hfin2 as <- <-.
Qed.

Lemma GlooUpsert_Finalize_twice_witness :
  let w := world_of [primary_at 700; canary_at 300] in
  let w' := world_left (GlooUpsert.Finalize demo w) w in
  let w'' := world_left (GlooUpsert.Finalize demo w') w' in
  GlooUpsert.Finalize demo w = Returned None w'
  ∧ GlooUpsert.Finalize demo w' = Returned None w''
  ∧ stored_at "test" "podinfo" w'' = stored_at "test" "podinfo" w'.
Proof.
  intros w w' w''.
  assert (GlooUpsert.Finalize demo w = Returned None w') as Hfin
    by (vm_compute; reflexivity).
  assert (GlooUpsert.Finalize demo w' = Returned None w'') as Hfin2
    by (vm_compute; reflexivity).
  assert (Forall (λ x, upstreamName x
                       ≠ Sprintf_canary (TargetRefName demo) (ServicePort demo))
                 ([primary_at 700] ++ [])) as Hall
    by (constructor; [by vm_compute | constructor]).
  split; [exact Hfin|]. split; [exact Hfin2|].
  exact (GlooUpsert_Finalize_twice demo w w' None w'' [primary_at 700]
           (canary_at 300) [] eq_refl Hall eq_refl Hfin Hfin2).
Defined.

(** ** Worked instances of the general results above *)

Lemma GlooUpsert_SetRoutes_GetRoutes_roundtrip_witness :
  let ds := [primary_at 1000; canary_at 0] in
  let w := world_of ds in
  let w' := world_left (GlooUpsert.SetRoutes demo 70 30 false w) w in
  GlooUpsert.SetRoutes demo 70 30 false w = Returned None w'
  ∧ next_is_faulty w' = false
  ∧ GlooUpsert.GetRoutes demo w'
    = Returned (70, 30, false, None) (after_call (EvGet "test" "podinfo") w').
Proof.
  intros ds w w'.
  assert (GlooUpsert.SetRoutes demo 70 30 false w = Returned None w') as Hset
    by (vm_compute; reflexivity).
  split; [exact Hset|]. split; [reflexivity|].
  refine (GlooUpsert_SetRoutes_GetRoutes_roundtrip demo 70 30 false w w' ds
            (primary_at 1000) (canary_at 0) _ _ _ eq_refl _ eq_refl _ eq_refl Hset eq_refl).
  - lia.
  - lia.
  - lia.
  - apply list_elem_of_here.
  - apply list_elem_of_further, list_elem_of_here.
Defined.

Lemma GlooReplace_SetRoutes_GetRoutes_roundtrip_witness :
  let w := world_of [mkWD "blue" "test" 1000] in
  let w' := world_left (GlooReplace.SetRoutes demo 45 55 false w) w in
  GlooReplace.SetRoutes demo 45 55 false w = Returned None w'
  ∧ next_is_faulty w' = false
  ∧ GlooReplace.GetRoutes demo w'
    = Returned (45, 55, false, None) (after_call (EvGet "test" "podinfo") w').
Proof.
  intros w w'.
  assert (GlooReplace.SetRoutes demo 45 55 false w = Returned None w') as Hset
    by (vm_compute; reflexivity).
  split; [exact Hset|]. split; [reflexivity|].
  refine (GlooReplace_SetRoutes_GetRoutes_roundtrip demo 45 55 false w w' _ _ _ Hset eq_refl);
    lia.
Defined.

Lemma Part000_SetRoutes_keeps_destinations_witness :
  let w := world_of [primary_at 1000; canary_at 0] in
  let w' := world_left (Part000.SetRoutes demo 0 100 false w) w in
  Part000.SetRoutes demo 0 100 false w = Returned None w'
  ∧ stored_at "test" "podinfo" w' = stored_at "test" "podinfo" w.
Proof.
  intros w w'.
  assert (Part000.SetRoutes demo 0 100 false w = Returned None w') as Hset
    by (vm_compute; reflexivity).
  split; [exact Hset|].
  exact (Part000_SetRoutes_keeps_destinations demo 0 100 false w None w' Hset
           "test" "podinfo").
Defined.

Lemma GlooUpsert_Reconcile_twice_witness :
  let w := world_of [primary_at 1000] in
  let w1 := world_left (GlooUpsert.Reconcile demo w) w in
  let w2 := world_left (GlooUpsert.Reconcile demo w1) w1 in
  GlooUpsert.Reconcile demo w = Returned None w1
  ∧ GlooUpsert.Reconcile demo w1 = Returned None w2
  ∧ updates (journal w2) = updates (journal w1)
  ∧ store w2 = store w1
  ∧ (updates (journal w2) ≤ S (updates (journal w)))%nat.
Proof.
  intros w w1 w2.
  assert (GlooUpsert.Reconcile demo w = Returned None w1) as H1
    by (vm_compute; reflexivity).
  assert (GlooUpsert.Reconcile demo w1 = Returned None w2) as H2
    by (vm_compute; reflexivity).
  split; [exact H1|]. split; [exact H2|].
  exact (GlooUpsert_Reconcile_twice demo w w1 None w2 H1 H2).
Defined.

Lemma GlooReplace_Reconcile_twice_witness :
  let w := world_of [mkWD "blue" "test" 400; mkWD "green" "test" 600] in
  let w1 := world_left (GlooReplace.Reconcile demo w) w in
  let w2 := world_left (GlooReplace.Reconcile demo w1) w1 in
  GlooReplace.Reconcile demo w = Returned None w1
  ∧ GlooReplace.Reconcile demo w1 = Returned None w2
  ∧ updates (journal w2) = updates (journal w1)
  ∧ store w2 = store w1
  ∧ (updates (journal w2) ≤ S (updates (journal w)))%nat.
Proof.
  intros w w1 w2.
  assert (GlooReplace.Reconcile demo w = Returned None w1) as H1
    by (vm_compute; reflexivity).
  assert (GlooReplace.Reconcile demo w1 = Returned None w2) as H2
    by (vm_compute; reflexivity).
  split; [exact H1|]. split; [exact H2|].
  exact (GlooReplace_Reconcile_twice demo w w1 None w2 H1 H2).
Defined.

Lemma GlooUpsert_Reconcile_upsert_witness :
  let ds := [primary_at 600; canary_at 400] in
  let w := world_of ds in
  let g := object_of "test" "podinfo" {| version := 7; spec := {| Destinations := ds |} |} in
  let w1 := after_call (EvGet "test" "podinfo") w in
  let ns := CanaryNamespace demo in
  let canaryName := Sprintf_canary (TargetRefName demo) (ServicePort demo) in
  Get (CanaryNamespace demo) (TargetRefName demo) w = Returned (inl g) w1
  ∧ ∃ e w2, GlooUpsert.Reconcile demo w = Returned e w2
      ∧ ((∃ x, x ∈ ds ∧ upstreamName x = canaryName) →
           e = None ∧ store w2 = store w ∧ updates (journal w2) = updates (journal w))
      ∧ (Forall (λ x, upstreamName x ≠ canaryName) ds →
           updates (journal w2) = S (updates (journal w))
           ∧ (e = None →
                stored_at ns (TargetRefName demo) w2 = Some (ds ++ [mkWD canaryName ns 0]))
           ∧ (e ≠ None → store w2 = store w)).
Proof.
  intros ds w g w1 ns canaryName.
  assert (Get (CanaryNamespace demo) (TargetRefName demo) w = Returned (inl g) w1) as Hget
    by (vm_compute; reflexivity).
  split; [exact Hget|].
  exact (GlooUpsert_Reconcile_upsert demo w g w1 Hget).
Defined.

Lemma GlooUpsert_GetRoutes_reference_missing_witness :
  let ds := [mkWD "blue" "test" 700; mkWD "green" "test" 300] in
  let w := world_of ds in
  let g := object_of "test" "podinfo" {| version := 7; spec := {| Destinations := ds |} |} in
  let w' := after_call (EvGet "test" "podinfo") w in
  Get (CanaryNamespace demo) (TargetRefName demo) w = Returned (inl g) w'
  ∧ ∃ e, GlooUpsert.GetRoutes demo w = Returned (0, 0, false, e) w'
         ∧ fails_with isDestinationNotFound e.
Proof.
  intros ds w g w'.
  assert (Get (CanaryNamespace demo) (TargetRefName demo) w = Returned (inl g) w') as Hget
    by (vm_compute; reflexivity).
  assert (Forall (λ x, upstreamName x
                       ≠ Sprintf_canary (TargetRefName demo) (ServicePort demo))
                 (Destinations (Spec g))) as Hall
    by (repeat constructor; by vm_compute).
  split; [exact Hget|].
  exact (GlooUpsert_GetRoutes_reference_missing demo w g w' Hget ltac:(simpl; lia) Hall).
Defined.
